(** * RedisDatabase: a shallow embedding of the in-memory store

    The development follows [src/RedisDatabase.cpp].  The four
    [std::unordered_map] members of the class become finite maps keyed by
    strings, every public method becomes a function on the store record, the
    readings of [std::chrono::steady_clock] become explicit arguments, and the
    file system used by [dump] and [load] is a finite map from paths to file
    contents.  The mutex only serialises calls and has no counterpart here. *)

From stdpp Require Import base gmap strings list fin_maps.
From Stdlib Require Import ZArith Lia.
From Stdlib Require Import Ascii.

Local Open Scope string_scope.
Local Open Scope Z_scope.

(** ** Machine integers and the clock *)

(** [int] is a 32-bit two's complement integer. *)
Definition INT_MIN : Z := - 2 ^ 31.
Definition INT_MAX : Z := 2 ^ 31 - 1.

Definition wrap32 (z : Z) : Z := (z + 2 ^ 31) mod 2 ^ 32 - 2 ^ 31.

(** Unary minus on an [int].  It is exact for every [int] but [INT_MIN],
    where the negation overflows and the language leaves the result
    undefined; the value written here for that one argument is not a fact
    about the program, and no property below is stated for it. *)
Definition int_neg (c : Z) : Z := wrap32 (- c).

(** A [steady_clock::time_point] is a tick count; one second is
    [ticks_per_second] ticks (the clock counts nanoseconds). *)
Abbreviation time_point := Z (only parsing).
Definition ticks_per_second : Z := 1000000000.

(** ** The store *)

Record RedisDatabase : Type := mkDB {
  kv_store : gmap string string;
  list_store : gmap string (list string);
  hash_store : gmap string (gmap string string);
  expiry_map : gmap string time_point
}.

(** The state of a freshly constructed instance. *)
Definition empty_db : RedisDatabase := mkDB ∅ ∅ ∅ ∅.

Definition set_kv (f : gmap string string → gmap string string)
    (db : RedisDatabase) : RedisDatabase :=
  mkDB (f (kv_store db)) (list_store db) (hash_store db) (expiry_map db).

Definition set_lists (f : gmap string (list string) → gmap string (list string))
    (db : RedisDatabase) : RedisDatabase :=
  mkDB (kv_store db) (f (list_store db)) (hash_store db) (expiry_map db).

Definition set_hashes
    (f : gmap string (gmap string string) → gmap string (gmap string string))
    (db : RedisDatabase) : RedisDatabase :=
  mkDB (kv_store db) (list_store db) (f (hash_store db)) (expiry_map db).

Definition set_expiry (f : gmap string time_point → gmap string time_point)
    (db : RedisDatabase) : RedisDatabase :=
  mkDB (kv_store db) (list_store db) (hash_store db) (f (expiry_map db)).

(** [find(key) != end()] on each of the three type stores. *)
Definition in_kv (key : string) (db : RedisDatabase) : bool :=
  bool_decide (is_Some (kv_store db !! key)).
Definition in_list (key : string) (db : RedisDatabase) : bool :=
  bool_decide (is_Some (list_store db !! key)).
Definition in_hash (key : string) (db : RedisDatabase) : bool :=
  bool_decide (is_Some (hash_store db !! key)).

(** ** Common commands and key/value operations *)

Definition flushAll (db : RedisDatabase) : bool * RedisDatabase :=
  (true, mkDB ∅ ∅ ∅ (expiry_map db)).

Definition set (key value : string) (db : RedisDatabase) : RedisDatabase :=
  set_kv (insert key value) db.

(** One iteration of the loop of [purgeExpired] at the entry [(key, deadline)]
    of the expiry map. *)
Definition purge_entry (now : time_point) (db : RedisDatabase)
    (e : string * time_point) : RedisDatabase :=
  if bool_decide (e.2 < now) then
    mkDB (delete e.1 (kv_store db)) (delete e.1 (list_store db))
         (delete e.1 (hash_store db)) (delete e.1 (expiry_map db))
  else db.

Definition purgeExpired (now : time_point) (db : RedisDatabase) : RedisDatabase :=
  foldl (purge_entry now) db (map_to_list (expiry_map db)).

(** [get] returns the found flag and the out-parameter [value], which is
    left as it was when the key is not found. *)
Definition get (now : time_point) (key value : string) (db : RedisDatabase)
    : bool * string * RedisDatabase :=
  let db := purgeExpired now db in
  match kv_store db !! key with
  | Some v => (true, v, db)
  | None => (false, value, db)
  end.

(** The source visits each [unordered_map] in an order that depends on how
    the map was filled; here the entries come in the order of [map_to_list].
    Only what does not depend on the order (membership, length,
    permutations) is stated about the result. *)
Definition keys (now : time_point) (db : RedisDatabase)
    : list string * RedisDatabase :=
  let db := purgeExpired now db in
  (((map_to_list (kv_store db)).*1 ++ (map_to_list (list_store db)).*1
      ++ (map_to_list (hash_store db)).*1)%list, db).

Definition type (now : time_point) (key : string) (db : RedisDatabase)
    : string * RedisDatabase :=
  let db := purgeExpired now db in
  (if in_kv key db then "string"
   else if in_list key db then "list"
   else if in_hash key db then "hash"
   else "none", db).

Definition del (now : time_point) (key : string) (db : RedisDatabase)
    : bool * RedisDatabase :=
  let db := purgeExpired now db in
  let erased := false in
  let erased := erased || in_kv key db in
  let db := set_kv (delete key) db in
  let erased := erased || in_list key db in
  let db := set_lists (delete key) db in
  let erased := erased || in_hash key db in
  let db := set_hashes (delete key) db in
  (false, db).

(** [expire] reads the clock twice: [now] inside [purgeExpired] and [now']
    when the deadline is computed. *)
Definition expire (now now' : time_point) (key : string) (seconds : Z)
    (db : RedisDatabase) : bool * RedisDatabase :=
  let db := purgeExpired now db in
  let exists_ := in_kv key db || in_list key db || in_hash key db in
  if negb exists_ then (false, db)
  else (true, set_expiry (insert key (now' + seconds * ticks_per_second)) db).

(** Iterators are modelled by the key they point at. *)
Definition rename (now : time_point) (oldKey newKey : string)
    (db : RedisDatabase) : bool * RedisDatabase :=
  let db := purgeExpired now db in
  let found := false in
  let '(found, db) :=
    match kv_store db !! oldKey with
    | Some v => (true, set_kv (λ m, delete oldKey (<[newKey := v]> m)) db)
    | None => (found, db)
    end in
  let '(found, db) :=
    match list_store db !! oldKey with
    | Some l => (true, set_lists (λ m, delete oldKey (<[newKey := l]> m)) db)
    | None => (found, db)
    end in
  let '(found, db) :=
    match hash_store db !! oldKey with
    | Some h => (true, set_hashes (λ m, delete oldKey (<[newKey := h]> m)) db)
    | None => (found, db)
    end in
  let db :=
    match expiry_map db !! oldKey with
    | Some d => set_expiry (λ m, delete oldKey (<[newKey := d]> m)) db
    | None => db
    end in
  (found, db).

(** ** List operations *)

Definition lget (key : string) (db : RedisDatabase) : list string :=
  match list_store db !! key with
  | Some l => l
  | None => []
  end.

Definition llen (key : string) (db : RedisDatabase) : Z :=
  match list_store db !! key with
  | Some l => Z.of_nat (length l)
  | None => 0
  end.

(** [list_store[key]] creates an empty list when the key is missing. *)
Definition lpush (key value : string) (db : RedisDatabase) : RedisDatabase :=
  set_lists (λ m, <[key := value :: default [] (m !! key)]> m) db.

Definition rpush (key value : string) (db : RedisDatabase) : RedisDatabase :=
  set_lists (λ m, <[key := (default [] (m !! key) ++ [value])%list]> m) db.

(** [lpop] and [rpop] return the success flag and the out-parameter.  The
    header declares the second parameter of [rpop] as a reference to const;
    the definition in the source file, followed here, writes to it. *)
Definition lpop (key value : string) (db : RedisDatabase)
    : bool * string * RedisDatabase :=
  match list_store db !! key with
  | Some (x :: l) => (true, x, set_lists (insert key l) db)
  | _ => (false, value, db)
  end.

Definition rpop (key value : string) (db : RedisDatabase)
    : bool * string * RedisDatabase :=
  match list_store db !! key with
  | Some l =>
      match last l with
      | Some x => (true, x, set_lists (insert key (removelast l)) db)
      | None => (false, value, db)
      end
  | None => (false, value, db)
  end.

(** [std::remove] followed by [erase]: the elements different from [value],
    in their order. *)
Fixpoint remove_all (value : string) (lst : list string) : list string :=
  match lst with
  | [] => []
  | x :: lst' =>
      if bool_decide (x = value) then remove_all value lst'
      else x :: remove_all value lst'
  end.

(** The erase loop of [lrem], scanning [lst] from its first element while
    [removed < limit]; the result is the list that is left and the final
    value of [removed]. *)
Fixpoint lrem_scan (limit removed : Z) (value : string) (lst : list string)
    : list string * Z :=
  match lst with
  | [] => ([], removed)
  | x :: lst' =>
      if bool_decide (removed < limit) then
        if bool_decide (x = value) then lrem_scan limit (removed + 1) value lst'
        else
          let '(rest, n) := lrem_scan limit removed value lst' in
          (x :: rest, n)
      else (lst, removed)
  end.

(** The three branches of [lrem] on the list found at [key].  The reverse
    iterators of the last branch visit the list from its last element, so the
    same scan runs on the reversed list; its bound is the [int] value
    [-count]. *)
Definition lrem_list (count : Z) (value : string) (lst : list string)
    : list string * Z :=
  if bool_decide (count = 0) then
    let kept := remove_all value lst in
    (kept, wrap32 (Z.of_nat (length lst) - Z.of_nat (length kept)))
  else if bool_decide (0 < count) then lrem_scan count 0 value lst
  else
    let '(rest, n) := lrem_scan (int_neg count) 0 value (reverse lst) in
    (reverse rest, n).

Definition lrem (key : string) (count : Z) (value : string)
    (db : RedisDatabase) : Z * RedisDatabase :=
  match list_store db !! key with
  | None => (0, db)
  | Some lst =>
      let '(lst', removed) := lrem_list count value lst in
      (removed, set_lists (insert key lst') db)
  end.

(** A negative [index] counts from the end; the sum is taken in [size_t] and
    stored back into the [int]. *)
Definition normalize_index (index : Z) (lst : list string) : Z :=
  if bool_decide (index < 0) then wrap32 (Z.of_nat (length lst) + index)
  else index.

Definition index_in_range (index : Z) (lst : list string) : bool :=
  bool_decide (0 ≤ index) && bool_decide (index < wrap32 (Z.of_nat (length lst))).

Definition lindex (key : string) (index : Z) (value : string)
    (db : RedisDatabase) : bool * string :=
  match list_store db !! key with
  | None => (false, value)
  | Some lst =>
      let index := normalize_index index lst in
      if index_in_range index lst then
        match lst !! Z.to_nat index with
        | Some x => (true, x)
        | None => (false, value)
        end
      else (false, value)
  end.

Definition lset (key : string) (index : Z) (value : string)
    (db : RedisDatabase) : bool * RedisDatabase :=
  match list_store db !! key with
  | None => (false, db)
  | Some lst =>
      let index := normalize_index index lst in
      if index_in_range index lst then
        (true, set_lists (insert key (<[Z.to_nat index := value]> lst)) db)
      else (false, db)
  end.

(** ** Hash operations *)

Definition hset (key field value : string) (db : RedisDatabase)
    : bool * RedisDatabase :=
  (true, set_hashes (λ m, <[key := <[field := value]> (default ∅ (m !! key))]> m) db).

Definition hget (key field value : string) (db : RedisDatabase) : bool * string :=
  match hash_store db !! key with
  | Some h =>
      match h !! field with
      | Some v => (true, v)
      | None => (false, value)
      end
  | None => (false, value)
  end.

Definition hexists (key field : string) (db : RedisDatabase) : bool :=
  match hash_store db !! key with
  | Some h => bool_decide (is_Some (h !! field))
  | None => false
  end.

Definition hdel (key field : string) (db : RedisDatabase) : bool * RedisDatabase :=
  match hash_store db !! key with
  | Some h =>
      (bool_decide (is_Some (h !! field)),
       set_hashes (insert key (delete field h)) db)
  | None => (false, db)
  end.

Definition hgetall (key : string) (db : RedisDatabase) : gmap string string :=
  match hash_store db !! key with
  | Some h => h
  | None => ∅
  end.

Definition hkeys (key : string) (db : RedisDatabase) : list string :=
  match hash_store db !! key with
  | Some h => (map_to_list h).*1
  | None => []
  end.

Definition hvals (key : string) (db : RedisDatabase) : list string :=
  match hash_store db !! key with
  | Some h => (map_to_list h).*2
  | None => []
  end.

Definition hlen (key : string) (db : RedisDatabase) : Z :=
  match hash_store db !! key with
  | Some h => Z.of_nat (size h)
  | None => 0
  end.

Definition hmset (key : string) (fieldValues : list (string * string))
    (db : RedisDatabase) : bool * RedisDatabase :=
  (true,
   foldl (λ db fv,
            set_hashes (λ m, <[key := <[fv.1 := fv.2]> (default ∅ (m !! key))]> m) db)
         db fieldValues).

(** ** Persistence *)

(** *** Formatted extraction from a [std::istringstream]

    A stream is modelled by the characters that are still unread.  An
    extraction that fails does so because only white space is left, so a
    failed stream is the empty remainder: every later extraction from it fails
    as well and leaves its (freshly constructed, empty) target empty. *)

Definition newline : ascii := "010"%char.

(** [std::isspace] in the classic locale: space and the characters 9 to 13. *)
Definition isspace (c : ascii) : bool :=
  let n := N_of_ascii c in
  ((n =? 32) || ((9 <=? n) && (n <=? 13)))%N.

Global Arguments isspace : simpl never.

Fixpoint skipws (s : string) : string :=
  match s with
  | EmptyString => EmptyString
  | String c s' => if isspace c then skipws s' else s
  end.

(** The longest prefix without white space, and what follows it. *)
Fixpoint read_word (s : string) : string * string :=
  match s with
  | EmptyString => (EmptyString, EmptyString)
  | String c s' =>
      if isspace c then (EmptyString, s)
      else let '(w, rest) := read_word s' in (String c w, rest)
  end.

(** [iss >> str] for a [std::string]; an empty word means the extraction
    failed. *)
Definition extract_string (s : string) : string * string :=
  read_word (skipws s).

(** [iss >> c] for a [char]: [None] when the extraction fails, in which case
    the target is not written. *)
Definition extract_char (s : string) : option ascii * string :=
  match skipws s with
  | EmptyString => (None, EmptyString)
  | String c rest => (Some c, rest)
  end.

(** [while (iss >> item) list.push_back(item)].  Every round consumes at least
    one character, so [String.length s] rounds are enough. *)
Fixpoint read_items (fuel : nat) (s : string) : list string :=
  match fuel with
  | O => []
  | S fuel' =>
      match extract_string s with
      | (EmptyString, _) => []
      | (item, rest) => item :: read_items fuel' rest
      end
  end.

Definition extract_items (s : string) : list string :=
  read_items (String.length s) s.

(** [pair.find(':')] with the two [substr] calls: the text before the first
    colon and the text after it. *)
Fixpoint split_colon (pair : string) : option (string * string) :=
  match pair with
  | EmptyString => None
  | String c pair' =>
      if bool_decide (c = ":"%char) then Some (EmptyString, pair')
      else
        match split_colon pair' with
        | Some (field, value) => Some (String c field, value)
        | None => None
        end
  end.

(** The body of the [while (iss >> pair)] loop of the ['H'] branch. *)
Definition add_pair (hash : gmap string string) (pair : string)
    : gmap string string :=
  match split_colon pair with
  | Some (field, value) => <[field := value]> hash
  | None => hash
  end.

(** [std::getline] applied until it fails: the file is cut at every newline,
    and a last line that is empty is not delivered. *)
Fixpoint getlines (text : string) : list string :=
  match text with
  | EmptyString => []
  | String c text' =>
      if bool_decide (c = newline) then EmptyString :: getlines text'
      else
        match getlines text' with
        | [] => [String c EmptyString]
        | line :: lines => String c line :: lines
        end
  end.

(** *** The file system *)

(** [fs_files] gives the content of the files that exist, [fs_denied] the
    paths on which opening a stream fails. *)
Record FileSystem : Type := mkFS {
  fs_files : gmap string string;
  fs_denied : gset string
}.

(** *** dump *)

Definition concat_strings (l : list string) : string :=
  foldr String.append EmptyString l.

(** The lines of a file, each closed by a newline. *)
Definition unlines (lines : list string) : string :=
  foldr (λ line text, line +:+ String newline text) EmptyString lines.

(** The record written for an entry of the string store, of the list store
    and of the hash store, without its closing newline. *)
Definition kv_line (e : string * string) : string :=
  "K " +:+ e.1 +:+ " " +:+ e.2.

Definition list_line (e : string * list string) : string :=
  "L " +:+ e.1 +:+ concat_strings ((λ item, " " +:+ item) <$> e.2).

Definition field_text (fv : string * string) : string :=
  fv.1 +:+ ":" +:+ fv.2.

Definition hash_line_of (e : string * list (string * string)) : string :=
  "H " +:+ e.1 +:+ concat_strings ((λ fv, " " +:+ field_text fv) <$> e.2).

Definition hash_line (e : string * gmap string string) : string :=
  hash_line_of (e.1, map_to_list e.2).

(** What [dump] writes: the three loops in turn.  The order in which an
    [unordered_map] is visited is not specified; here it is the order of
    [map_to_list], and [load_lines_any_order] covers every other order. *)
Definition dump_text (db : RedisDatabase) : string :=
  unlines ((kv_line <$> map_to_list (kv_store db))
           ++ (list_line <$> map_to_list (list_store db))
           ++ (hash_line <$> map_to_list (hash_store db)))%list.

Definition dump (filename : string) (db : RedisDatabase) (fs : FileSystem)
    : bool * FileSystem :=
  if bool_decide (filename ∈ fs_denied fs) then (false, fs)
  else (true, mkFS (<[filename := dump_text db]> (fs_files fs)) (fs_denied fs)).

(** *** load *)

(** The body of the [while (std::getline(ifs, line))] loop.  [type] is not
    initialised, so on a line without a visible character the tests read an
    indeterminate value, here the argument [uninit]. *)
Definition load_line (uninit : ascii) (line : string) (db : RedisDatabase)
    : RedisDatabase :=
  let '(c, iss) := extract_char line in
  let type := default uninit c in
  if bool_decide (type = "K"%char) then
    let '(key, iss) := extract_string iss in
    let '(value, iss) := extract_string iss in
    set_kv (insert key value) db
  else if bool_decide (type = "L"%char) then
    let '(key, iss) := extract_string iss in
    set_lists (insert key (extract_items iss)) db
  else if bool_decide (type = "H"%char) then
    let '(key, iss) := extract_string iss in
    set_hashes (insert key (foldl add_pair ∅ (extract_items iss))) db
  else db.

(** The loop over the lines; [uninit n] is the indeterminate value met at
    line number [n]. *)
Fixpoint load_lines (uninit : nat → ascii) (n : nat) (lines : list string)
    (db : RedisDatabase) : RedisDatabase :=
  match lines with
  | [] => db
  | line :: lines' =>
      load_lines uninit (S n) lines' (load_line (uninit n) line db)
  end.

Definition load (uninit : nat → ascii) (filename : string)
    (db : RedisDatabase) (fs : FileSystem) : bool * RedisDatabase :=
  if bool_decide (filename ∈ fs_denied fs) then (false, db)
  else
    match fs_files fs !! filename with
    | None => (false, db)
    | Some text =>
        (true, load_lines uninit 0 (getlines text) (mkDB ∅ ∅ ∅ (expiry_map db)))
    end.


(** ** Sequences of public operations *)

(** One call of a public method, with the clock readings it makes.  The
    out-parameters start empty; results are dropped, only the effect on the
    store and on the file system is kept. *)
Inductive Command : Type :=
  | CFlushAll
  | CSet (key value : string)
  | CGet (now : time_point) (key : string)
  | CKeys (now : time_point)
  | CType (now : time_point) (key : string)
  | CDel (now : time_point) (key : string)
  | CExpire (now now' : time_point) (key : string) (seconds : Z)
  | CPurgeExpired (now : time_point)
  | CRename (now : time_point) (oldKey newKey : string)
  | CLget (key : string)
  | CLlen (key : string)
  | CLpush (key value : string)
  | CRpush (key value : string)
  | CLpop (key : string)
  | CRpop (key : string)
  | CLrem (key : string) (count : Z) (value : string)
  | CLindex (key : string) (index : Z)
  | CLset (key : string) (index : Z) (value : string)
  | CHset (key field value : string)
  | CHget (key field : string)
  | CHexists (key field : string)
  | CHdel (key field : string)
  | CHgetall (key : string)
  | CHkeys (key : string)
  | CHvals (key : string)
  | CHlen (key : string)
  | CHmset (key : string) (fieldValues : list (string * string))
  | CDump (filename : string)
  | CLoad (uninit : nat → ascii) (filename : string).

Record World : Type := mkWorld {
  w_db : RedisDatabase;
  w_fs : FileSystem
}.

Definition exec (w : World) (c : Command) : World :=
  let db := w_db w in
  let fs := w_fs w in
  match c with
  | CFlushAll => mkWorld (flushAll db).2 fs
  | CSet key value => mkWorld (set key value db) fs
  | CGet now key => mkWorld (get now key "" db).2 fs
  | CKeys now => mkWorld (keys now db).2 fs
  | CType now key => mkWorld (type now key db).2 fs
  | CDel now key => mkWorld (del now key db).2 fs
  | CExpire now now' key seconds => mkWorld (expire now now' key seconds db).2 fs
  | CPurgeExpired now => mkWorld (purgeExpired now db) fs
  | CRename now oldKey newKey => mkWorld (rename now oldKey newKey db).2 fs
  | CLpush key value => mkWorld (lpush key value db) fs
  | CRpush key value => mkWorld (rpush key value db) fs
  | CLpop key => mkWorld (lpop key "" db).2 fs
  | CRpop key => mkWorld (rpop key "" db).2 fs
  | CLrem key count value => mkWorld (lrem key count value db).2 fs
  | CLset key index value => mkWorld (lset key index value db).2 fs
  | CHset key field value => mkWorld (hset key field value db).2 fs
  | CHdel key field => mkWorld (hdel key field db).2 fs
  | CHmset key fieldValues => mkWorld (hmset key fieldValues db).2 fs
  | CDump filename => mkWorld db (dump filename db fs).2
  | CLoad uninit filename => mkWorld (load uninit filename db fs).2 fs
  | CLget _ | CLlen _ | CLindex _ _ | CHget _ _ | CHexists _ _
  | CHgetall _ | CHkeys _ | CHvals _ | CHlen _ => w
  end.

Definition run (cmds : list Command) (w : World) : World := foldl exec w cmds.

(** The number of type stores that hold [key]. *)
Definition stores_holding (key : string) (db : RedisDatabase) : nat :=
  (Nat.b2n (in_kv key db) + Nat.b2n (in_list key db) + Nat.b2n (in_hash key db))%nat.

Definition exclusive (db : RedisDatabase) : Prop :=
  ∀ key, (stores_holding key db ≤ 1)%nat.

(** *** Callers that keep to one type per key *)

Inductive KeyType : Type := TString | TList | THash.

Global Instance KeyType_eq_dec : EqDecision KeyType.
Proof. solve_decision. Defined.

(** The tag and the key that [load_line] takes from a line. *)
Definition line_tag (uninit : ascii) (line : string) : ascii :=
  default uninit (extract_char line).1.

Definition line_key (line : string) : string :=
  (extract_string (extract_char line).2).1.

Definition line_respects (ty : string → KeyType) (uninit : ascii)
    (line : string) : bool :=
  let t := line_tag uninit line in
  if bool_decide (t = "K"%char) then bool_decide (ty (line_key line) = TString)
  else if bool_decide (t = "L"%char) then bool_decide (ty (line_key line) = TList)
  else if bool_decide (t = "H"%char) then bool_decide (ty (line_key line) = THash)
  else true.

Fixpoint lines_respect (ty : string → KeyType) (uninit : nat → ascii) (n : nat)
    (lines : list string) : bool :=
  match lines with
  | [] => true
  | line :: lines' =>
      line_respects ty (uninit n) line && lines_respect ty uninit (S n) lines'
  end.

(** [respects ty w c]: the call [c], made in the world [w], writes every key
    through the store that [ty] assigns to it. *)
Definition respects (ty : string → KeyType) (w : World) (c : Command) : bool :=
  match c with
  | CSet key _ => bool_decide (ty key = TString)
  | CLpush key _ | CRpush key _ => bool_decide (ty key = TList)
  | CHset key _ _ | CHmset key _ => bool_decide (ty key = THash)
  | CRename _ oldKey newKey => bool_decide (ty oldKey = ty newKey)
  | CLoad uninit filename =>
      match fs_files (w_fs w) !! filename with
      | Some text => lines_respect ty uninit 0 (getlines text)
      | None => true
      end
  | _ => true
  end.

Fixpoint run_respects (ty : string → KeyType) (cmds : list Command) (w : World)
    : bool :=
  match cmds with
  | [] => true
  | c :: cmds' => respects ty w c && run_respects ty cmds' (exec w c)
  end.

(** Every key sits in the store of its type only. *)
Definition typed (ty : string → KeyType) (db : RedisDatabase) : Prop :=
  (∀ key, is_Some (kv_store db !! key) → ty key = TString)
  ∧ (∀ key, is_Some (list_store db !! key) → ty key = TList)
  ∧ (∀ key, is_Some (hash_store db !! key) → ty key = THash).

(** ** Specification-level functions *)

(** Remove the first [n] occurrences of [value], scanning from the head. *)
Fixpoint remove_upto (n : nat) (value : string) (lst : list string) : list string :=
  match n, lst with
  | O, _ => lst
  | _, [] => []
  | S n', x :: lst' =>
      if bool_decide (x = value) then remove_upto n' value lst'
      else x :: remove_upto n value lst'
  end.

Fixpoint occurrences (value : string) (lst : list string) : nat :=
  match lst with
  | [] => O
  | x :: lst' =>
      if bool_decide (x = value) then S (occurrences value lst')
      else occurrences value lst'
  end.

(** What [lrem] is asked to leave in the list. *)
Definition lrem_spec (count : Z) (value : string) (lst : list string)
    : list string :=
  if bool_decide (count = 0) then filter (λ x, x ≠ value) lst
  else if bool_decide (0 < count) then remove_upto (Z.to_nat count) value lst
  else reverse (remove_upto (Z.to_nat (- count)) value (reverse lst)).

(** *** Character classes of the persisted format *)

Fixpoint no_space (s : string) : bool :=
  match s with
  | EmptyString => true
  | String c s' => negb (isspace c) && no_space s'
  end.

Fixpoint no_colon (s : string) : bool :=
  match s with
  | EmptyString => true
  | String c s' => negb (bool_decide (c = ":"%char)) && no_colon s'
  end.

(** No blank (character 32) and no colon. *)
Fixpoint plain (s : string) : bool :=
  match s with
  | EmptyString => true
  | String c s' =>
      negb (bool_decide (c = " "%char)) && negb (bool_decide (c = ":"%char))
      && plain s'
  end.

Fixpoint no_newline (s : string) : bool :=
  match s with
  | EmptyString => true
  | String c s' => negb (bool_decide (c = newline)) && no_newline s'
  end.

(** What may follow a word in a stream: nothing, or white space. *)
Definition word_end (s : string) : bool :=
  match s with
  | EmptyString => true
  | String c _ => isspace c
  end.

(** A word: not empty and free of white space. *)
Definition word (s : string) : bool :=
  negb (bool_decide (s = EmptyString)) && no_space s.

(** The stores named in the round-trip property as it is worded: nothing
    contains a blank or a colon. *)
Definition plain_db (db : RedisDatabase) : Prop :=
  map_Forall (λ k v, plain k = true ∧ plain v = true) (kv_store db)
  ∧ map_Forall (λ k l, plain k = true ∧ Forall (λ x, plain x = true) l)
      (list_store db)
  ∧ map_Forall
      (λ k h, plain k = true
              ∧ map_Forall (λ f v, plain f = true ∧ plain v = true) h)
      (hash_store db).

(** The stores that the format can represent: keys and list items are words,
    nothing contains white space, and hash fields contain no colon. *)
Definition representable (db : RedisDatabase) : Prop :=
  map_Forall (λ k v, word k = true ∧ no_space v = true) (kv_store db)
  ∧ map_Forall (λ k l, word k = true ∧ Forall (λ x, word x = true) l)
      (list_store db)
  ∧ map_Forall
      (λ k h, word k = true
              ∧ map_Forall (λ f v, no_space f = true ∧ no_colon f = true
                                   ∧ no_space v = true) h)
      (hash_store db).

(** What the store records about one key, in the order of the four maps. *)
Definition at_key (key : string) (db : RedisDatabase)
    : option string * option (list string) * option (gmap string string)
      * option time_point :=
  (kv_store db !! key, list_store db !! key, hash_store db !! key,
   expiry_map db !! key).

Definition absent : option string * option (list string)
    * option (gmap string string) * option time_point :=
  (None, None, None, None).

(** The step that [rename] repeats on each of the four maps: copy the entry of
    [oldKey] to [newKey], then erase the entry of [oldKey]. *)
Definition move_entry {A} (oldKey newKey : string) (m : gmap string A)
    : gmap string A :=
  match m !! oldKey with
  | Some x => delete oldKey (<[newKey := x]> m)
  | None => m
  end.

(** The items of a list record and the fields of a hash record, each with
    the blank that [dump] writes in front of it. *)
Definition spaced (items : list string) : string :=
  concat_strings ((λ item, " " +:+ item) <$> items).

(** The assignments [m[key] = value] made in turn for a list of entries. *)
Definition assign_all {A} (m : gmap string A) (entries : list (string * A))
    : gmap string A :=
  foldl (λ m e, <[e.1 := e.2]> m) m entries.

(** [stores_sub db' db]: every key of a type store of [db'] is a key of the
    same store of [db]. *)
Definition stores_sub (db' db : RedisDatabase) : Prop :=
  (∀ key, is_Some (kv_store db' !! key) → is_Some (kv_store db !! key))
  ∧ (∀ key, is_Some (list_store db' !! key) → is_Some (list_store db !! key))
  ∧ (∀ key, is_Some (hash_store db' !! key) → is_Some (hash_store db !! key)).

(** A type assignment and a session that keeps to it, used as an example:
    ["name"] is a string key, ["queue"] a list key, every other key a hash
    key. *)
Definition example_types (key : string) : KeyType :=
  if bool_decide (key = "name") then TString
  else if bool_decide (key = "queue") then TList
  else THash.

Definition example_session : list Command :=
  [ CSet "name" "Alice"; CRpush "queue" "job1"; CLpush "queue" "job0";
    CHset "user" "age" "30"; CExpire 0 1 "name" 60; CDump "snapshot";
    CFlushAll; CLoad (λ _, "X"%char) "snapshot"; CRename 2 "user" "owner";
    CLpop "queue"; CDel 3 "name" ].

(** [expired now key db]: a deadline is recorded for [key] and the clock
    reading [now] is past it. *)
Definition expired (now : time_point) (key : string) (db : RedisDatabase)
    : bool :=
  match expiry_map db !! key with
  | Some d => bool_decide (d < now)
  | None => false
  end.

(** The position that [lindex] and [lset] are asked for: a negative [index]
    counts from the end of the list. *)
Definition position (index : Z) (lst : list string) : Z :=
  if bool_decide (index < 0) then Z.of_nat (length lst) + index else index.

(** The element at a position, if the position is in the list. *)
Definition element_at (pos : Z) (lst : list string) : option string :=
  if bool_decide (0 ≤ pos) then lst !! Z.to_nat pos else None.

(** Two stores with the same three type stores; the deadlines may differ. *)
Definition same_stores (a b : RedisDatabase) : Prop :=
  kv_store a = kv_store b ∧ list_store a = list_store b
  ∧ hash_store a = hash_store b.

(** A store with two strings and a hash of two fields, used as an example. *)
Definition example_db : RedisDatabase :=
  (hset "user" "age" "30"
     (hset "user" "name" "Bob"
        (rpush "fruits" "pear" (rpush "fruits" "apple"
           (set "city" "Berlin" (set "name" "Alice" empty_db))))).2).2.

(** *** What a line of a persisted file means

    Stated on the words of the line rather than on the stream. *)











(** * Properties *)

(** ** Expiry purge *)

Section purge.
Variable now : time_point.

Lemma at_key_purge_entry key db e :
  at_key key (purge_entry now db e) =
    if bool_decide (e.1 = key ∧ e.2 < now) then absent else at_key key db.
Proof.
  unfold purge_entry, at_key, absent.
  destruct (decide (e.2 < now)) as [Hlt|Hge].
  - rewrite (bool_decide_eq_true_2 _ Hlt). simpl.
    destruct (decide (e.1 = key)) as [->|Hne].
    + rewrite bool_decide_eq_true_2; [|done].
      by rewrite !lookup_delete_eq.
    + rewrite bool_decide_eq_false_2; [|by intros [? ?]].
      by rewrite !lookup_delete_ne.
  - rewrite (bool_decide_eq_false_2 _ Hge).
    rewrite bool_decide_eq_false_2; [done|by intros [? ?]].
Qed.

Lemma at_key_purge_absent l : ∀ db key,
  at_key key db = absent → at_key key (foldl (purge_entry now) db l) = absent.
Proof.
  induction l as [|e l IH]; intros db key Hdb; [done|].
  simpl. apply IH. rewrite at_key_purge_entry. by case_bool_decide.
Qed.

Lemma at_key_purge_list_gone l : ∀ db key d,
  (key, d) ∈ l → d < now → at_key key (foldl (purge_entry now) db l) = absent.
Proof.
  induction l as [|e l IH]; intros db key d Hin Hlt.
  - by apply elem_of_nil in Hin.
  - simpl. apply elem_of_cons in Hin as [<-|Hin].
    + apply at_key_purge_absent. rewrite at_key_purge_entry.
      by rewrite bool_decide_eq_true_2.
    + by eapply IH.
Qed.

Lemma at_key_purge_list_keep l : ∀ db key,
  (∀ d, (key, d) ∈ l → now ≤ d) →
  at_key key (foldl (purge_entry now) db l) = at_key key db.
Proof.
  induction l as [|e l IH]; intros db key Hl; [done|].
  simpl. rewrite IH.
  - rewrite at_key_purge_entry. case_bool_decide as H; [|done].
    destruct H as [<- Hlt]. destruct e as [k d]. simpl in *.
    specialize (Hl d (list_elem_of_here _ _)). lia.
  - intros d Hd. apply Hl. by apply list_elem_of_further.
Qed.

(** The effect of [purgeExpired] on one key: it is erased everywhere when
    its deadline has passed and untouched otherwise. *)
Lemma at_key_purgeExpired key db :
  at_key key (purgeExpired now db) =
    match expiry_map db !! key with
    | Some d => if bool_decide (d < now) then absent else at_key key db
    | None => at_key key db
    end.
Proof.
  unfold purgeExpired.
  destruct (expiry_map db !! key) as [d|] eqn:Hd.
  - case_bool_decide as Hlt.
    + apply at_key_purge_list_gone with d; [|done].
      by apply elem_of_map_to_list.
    + apply at_key_purge_list_keep. intros d' Hd'.
      apply elem_of_map_to_list in Hd'. simplify_eq. lia.
  - apply at_key_purge_list_keep. intros d' Hd'.
    apply elem_of_map_to_list in Hd'. congruence.
Qed.

Lemma purgeExpired_keep key db :
  (∀ d, expiry_map db !! key = Some d → now ≤ d) →
  at_key key (purgeExpired now db) = at_key key db.
Proof.
  intros H. rewrite at_key_purgeExpired.
  destruct (expiry_map db !! key) as [d|]; [|done].
  rewrite bool_decide_eq_false_2; [done|]. specialize (H d eq_refl). lia.
Qed.

Lemma purgeExpired_gone key db d :
  expiry_map db !! key = Some d → d < now →
  at_key key (purgeExpired now db) = absent.
Proof.
  intros Hd Hlt. rewrite at_key_purgeExpired, Hd.
  by rewrite bool_decide_eq_true_2.
Qed.
End purge.

(** ** Key/value operations *)

Lemma in_kv_true key db : in_kv key db = true ↔ is_Some (kv_store db !! key).
Proof. unfold in_kv. apply bool_decide_eq_true. Qed.

Lemma in_list_true key db : in_list key db = true ↔ is_Some (list_store db !! key).
Proof. unfold in_list. apply bool_decide_eq_true. Qed.

Lemma in_hash_true key db : in_hash key db = true ↔ is_Some (hash_store db !! key).
Proof. unfold in_hash. apply bool_decide_eq_true. Qed.

Lemma in_kv_false key db : in_kv key db = false ↔ kv_store db !! key = None.
Proof.
  unfold in_kv. rewrite bool_decide_eq_false. symmetry. apply eq_None_not_Some.
Qed.

Lemma in_list_false key db : in_list key db = false ↔ list_store db !! key = None.
Proof.
  unfold in_list. rewrite bool_decide_eq_false. symmetry. apply eq_None_not_Some.
Qed.

Lemma in_hash_false key db : in_hash key db = false ↔ hash_store db !! key = None.
Proof.
  unfold in_hash. rewrite bool_decide_eq_false. symmetry. apply eq_None_not_Some.
Qed.

Lemma at_key_absent_inv key db :
  at_key key db = absent →
  kv_store db !! key = None ∧ list_store db !! key = None
  ∧ hash_store db !! key = None ∧ expiry_map db !! key = None.
Proof. unfold at_key, absent. intros [= -> -> -> ->]. done. Qed.

Lemma at_key_eq_inv key db db' :
  at_key key db = at_key key db' →
  kv_store db !! key = kv_store db' !! key
  ∧ list_store db !! key = list_store db' !! key
  ∧ hash_store db !! key = hash_store db' !! key
  ∧ expiry_map db !! key = expiry_map db' !! key.
Proof. unfold at_key. intros [= -> -> -> ->]. done. Qed.

Lemma stores_holding_0 key db :
  stores_holding key db = 0%nat ↔
  kv_store db !! key = None ∧ list_store db !! key = None
  ∧ hash_store db !! key = None.
Proof.
  unfold stores_holding.
  rewrite <- in_kv_false, <- in_list_false, <- in_hash_false.
  destruct (in_kv key db), (in_list key db), (in_hash key db); simpl;
    intuition (try discriminate; try lia).
Qed.

(** *** del *)

Lemma del_unfold now key db :
  del now key db =
    (false,
     let p := purgeExpired now db in
     mkDB (delete key (kv_store p)) (delete key (list_store p))
          (delete key (hash_store p)) (expiry_map p)).
Proof. reflexivity. Qed.

(** Whatever held the key, [del] erases it from the three type stores, so a
    [get] that follows does not find it. *)
Lemma del_removes now key db :
  stores_holding key (del now key db).2 = 0%nat.
Proof.
  apply stores_holding_0. rewrite del_unfold. simpl.
  by rewrite !lookup_delete_eq.
Qed.

Lemma del_then_get now now' key value db :
  (get now' key value (del now key db).2).1 = (false, value).
Proof.
  unfold get.
  pose proof (at_key_purgeExpired now' key (del now key db).2) as Hp.
  pose proof (del_removes now key db) as Hd.
  apply stores_holding_0 in Hd as (Hkv & _ & _).
  assert (kv_store (purgeExpired now' (del now key db).2) !! key = None) as ->;
    [|done].
  destruct (expiry_map (del now key db).2 !! key) as [d|].
  - case_bool_decide.
    + by apply at_key_absent_inv in Hp as (? & _).
    + apply at_key_eq_inv in Hp as (-> & _). done.
  - apply at_key_eq_inv in Hp as (-> & _). done.
Qed.

(** The expiry map is not touched by [del] itself. *)
Lemma del_expiry now key db :
  expiry_map (del now key db).2 = expiry_map (purgeExpired now db).
Proof. reflexivity. Qed.

Lemma del_result now key db : (del now key db).1 = false.
Proof. reflexivity. Qed.

(** C2.  [del] erases the key from the type stores but answers [false] even
    then, and it leaves the deadline of the key in the expiry map: on the
    store built by [set("k","v")] and [expire("k",100)], [del("k")] returns
    [false] although the string store held ["k"], the key is gone afterwards,
    and its deadline is still recorded. *)
Theorem del_reports_false_and_keeps_deadline :
  let db := (expire 0 0 "k" 100 (set "k" "v" empty_db)).2 in
  in_kv "k" db = true
  ∧ (del 1 "k" db).1 = false
  ∧ stores_holding "k" (del 1 "k" db).2 = 0%nat
  ∧ (get 2 "k" "" (del 1 "k" db).2).1 = (false, "")
  ∧ expiry_map (del 1 "k" db).2 !! "k" = Some (100 * ticks_per_second).
Proof. vm_compute. repeat split; reflexivity. Qed.

(** *** rename *)

Lemma rename_unfold now oldKey newKey db :
  rename now oldKey newKey db =
    let p := purgeExpired now db in
    (in_kv oldKey p || in_list oldKey p || in_hash oldKey p,
     mkDB (move_entry oldKey newKey (kv_store p))
          (move_entry oldKey newKey (list_store p))
          (move_entry oldKey newKey (hash_store p))
          (move_entry oldKey newKey (expiry_map p))).
Proof.
  unfold rename, move_entry, in_kv, in_list, in_hash. simpl.
  destruct (purgeExpired now db) as [kv ls hs ex]. simpl.
  destruct (kv !! oldKey); simpl; destruct (ls !! oldKey); simpl;
    destruct (hs !! oldKey); simpl; destruct (ex !! oldKey); reflexivity.
Qed.

Lemma move_entry_self {A} key (m : gmap string A) :
  move_entry key key m !! key = None.
Proof.
  unfold move_entry. destruct (m !! key) eqn:H; [|done].
  apply lookup_delete_eq.
Qed.

Lemma move_entry_absent {A} oldKey newKey (m : gmap string A) :
  m !! oldKey = None → move_entry oldKey newKey m = m.
Proof. unfold move_entry. by intros ->. Qed.

(** [rename] answers [true] exactly when, once expired keys are purged, one
    of the three type stores holds [oldKey]. *)
Lemma rename_result now oldKey newKey db :
  (rename now oldKey newKey db).1 = true ↔
  stores_holding oldKey (purgeExpired now db) ≠ 0%nat.
Proof.
  rewrite rename_unfold. simpl. unfold stores_holding.
  destruct (in_kv _ _), (in_list _ _), (in_hash _ _); simpl;
    intuition (try discriminate; try lia).
Qed.

(** X25.  When no map at all mentions [oldKey], a failed [rename] changes
    nothing beyond the purge. *)
Lemma rename_absent_everywhere now oldKey newKey db :
  at_key oldKey (purgeExpired now db) = absent →
  rename now oldKey newKey db = (false, purgeExpired now db).
Proof.
  intros (Hkv & Hl & Hh & He)%at_key_absent_inv.
  rewrite rename_unfold. simpl.
  rewrite !move_entry_absent by done.
  apply in_kv_false in Hkv. apply in_list_false in Hl.
  apply in_hash_false in Hh. rewrite Hkv, Hl, Hh.
  by destruct (purgeExpired now db).
Qed.

(** C4.  A [rename] whose source key is in no type store fails, yet it
    still moves the deadline of the source key.  After [set("a","x")],
    [expire("a",100)], [flushAll()] and [set("b","y")] the key ["a"] is in no
    store; [rename("a","b")] returns [false], but the deadline recorded for
    ["a"] now belongs to ["b"], and ["b"] is purged once it has passed. *)
Theorem rename_failed_moves_deadline :
  let db := set "b" "y" (flushAll (expire 0 0 "a" 100 (set "a" "x" empty_db)).2).2 in
  let db' := (rename 1 "a" "b" db).2 in
  stores_holding "a" (purgeExpired 1 db) = 0%nat
  ∧ purgeExpired 1 db = db
  ∧ (rename 1 "a" "b" db).1 = false
  ∧ expiry_map db !! "a" = Some (100 * ticks_per_second)
  ∧ expiry_map db !! "b" = None
  ∧ expiry_map db' !! "a" = None
  ∧ expiry_map db' !! "b" = Some (100 * ticks_per_second)
  ∧ (get (100 * ticks_per_second + 1) "b" "" db).1 = (true, "y")
  ∧ (get (100 * ticks_per_second + 1) "b" "" db').1 = (false, "").
Proof. vm_compute. repeat split; reflexivity. Qed.

(** C9.  Renaming a key to itself deletes it: when [key] has not expired
    and is held by a type store, [rename(key, key)] returns [true] and leaves
    [key] in none of the three type stores and not in the expiry map. *)
Theorem rename_self_deletes now key db
    (Hlive : ∀ d, expiry_map db !! key = Some d → now ≤ d)
    (Hheld : stores_holding key db = 1%nat) :
  (rename now key key db).1 = true
  ∧ at_key key (rename now key key db).2 = absent
  ∧ stores_holding key (rename now key key db).2 = 0%nat.
Proof.
  pose proof (purgeExpired_keep now key db Hlive) as Hp.
  apply at_key_eq_inv in Hp as (Hkv & Hl & Hh & _).
  assert (at_key key (rename now key key db).2 = absent) as Habs.
  { rewrite rename_unfold. unfold at_key, absent. simpl.
    by rewrite !move_entry_self. }
  split; [|split; [done|]].
  - apply rename_result. unfold stores_holding, in_kv, in_list, in_hash in *.
    rewrite Hkv, Hl, Hh. lia.
  - apply stores_holding_0.
    apply at_key_absent_inv in Habs as (? & ? & ? & _). done.
Qed.

Lemma rename_self_deletes_witness :
  let db := (expire 0 0 "k" 100 (set "k" "v" empty_db)).2 in
  (rename 1 "k" "k" db).1 = true
  ∧ at_key "k" (rename 1 "k" "k" db).2 = absent
  ∧ stores_holding "k" (rename 1 "k" "k" db).2 = 0%nat.
Proof.
  apply (rename_self_deletes 1 "k"
           (expire 0 0 "k" 100 (set "k" "v" empty_db)).2).
  - intros d. vm_compute. intros [= <-]. discriminate.
  - vm_compute. reflexivity.
Defined.

(** *** type and keys *)

Lemma type_unfold now key db :
  (type now key db).1 =
    let p := purgeExpired now db in
    if in_kv key p then "string"
    else if in_list key p then "list"
    else if in_hash key p then "hash" else "none".
Proof. reflexivity. Qed.

(** [type] answers ["hash"] exactly for a live key that only the hash store
    holds. *)
Lemma type_hash_iff now key db :
  (type now key db).1 = "hash" ↔
  (∀ d, expiry_map db !! key = Some d → now ≤ d)
  ∧ kv_store db !! key = None ∧ list_store db !! key = None
  ∧ is_Some (hash_store db !! key).
Proof.
  rewrite type_unfold. simpl.
  pose proof (at_key_purgeExpired now key db) as Hp.
  split.
  - intros Ht.
    destruct (in_kv key _) eqn:Hkv; [discriminate|].
    destruct (in_list key _) eqn:Hl; [discriminate|].
    destruct (in_hash key _) eqn:Hh; [|discriminate].
    apply in_kv_false in Hkv. apply in_list_false in Hl.
    apply in_hash_true in Hh.
    destruct (expiry_map db !! key) as [d|] eqn:Hd.
    + case_bool_decide as Hlt.
      * apply at_key_absent_inv in Hp as (_ & _ & Hn & _).
        rewrite Hn in Hh. by destruct Hh.
      * apply at_key_eq_inv in Hp as (<- & <- & <- & _).
        split; [|done]. intros d' [= <-]. lia.
    + apply at_key_eq_inv in Hp as (<- & <- & <- & _).
      split; [|done]. by intros d' [=].
  - intros (Hlive & Hkv & Hl & Hh).
    rewrite purgeExpired_keep in Hp by done. clear Hp.
    pose proof (purgeExpired_keep now key db Hlive) as Hp.
    apply at_key_eq_inv in Hp as (Hkv' & Hl' & Hh' & _).
    rewrite <- Hkv' in Hkv. rewrite <- Hl' in Hl. rewrite <- Hh' in Hh.
    apply in_kv_false in Hkv. apply in_list_false in Hl.
    apply in_hash_true in Hh. by rewrite Hkv, Hl, Hh.
Qed.

Lemma keys_unfold now db :
  (keys now db).1 =
    let p := purgeExpired now db in
    ((map_to_list (kv_store p)).*1 ++ (map_to_list (list_store p)).*1
       ++ (map_to_list (hash_store p)).*1)%list.
Proof. reflexivity. Qed.

Lemma elem_of_map_keys {A} key (m : gmap string A) :
  key ∈ (map_to_list m).*1 ↔ is_Some (m !! key).
Proof.
  rewrite list_elem_of_fmap. split.
  - intros [[k x] [-> Hin]]. apply elem_of_map_to_list in Hin. by exists x.
  - intros [x Hx]. exists (key, x). split; [done|].
    by apply elem_of_map_to_list.
Qed.

(** [keys] lists exactly the keys that some type store holds after the
    purge. *)
Lemma elem_of_keys now key db :
  key ∈ (keys now db).1 ↔ stores_holding key (purgeExpired now db) ≠ 0%nat.
Proof.
  rewrite keys_unfold. simpl. rewrite !elem_of_app, !elem_of_map_keys.
  rewrite <- in_kv_true, <- in_list_true, <- in_hash_true.
  unfold stores_holding.
  destruct (in_kv _ _), (in_list _ _), (in_hash _ _); simpl;
    intuition (try discriminate; try lia).
Qed.

(** ** Hash operations *)

(** [hdel] keeps every key of the hash store. *)
Lemma hdel_keeps_keys key field db k :
  is_Some (hash_store db !! k) →
  is_Some (hash_store (hdel key field db).2 !! k).
Proof.
  intros Hk. unfold hdel. destruct (hash_store db !! key) as [h|] eqn:Hh; [|done].
  simpl. destruct (decide (key = k)) as [->|Hne].
  - rewrite lookup_insert_eq. by eexists.
  - by rewrite lookup_insert_ne.
Qed.

(** C10.  Deleting the only field of a hash leaves an empty hash behind:
    for a key of type hash whose hash holds the single field [field],
    [hdel] returns [true], and afterwards the key is still in the hash store,
    bound to the empty hash: [type] still answers ["hash"], [keys] still
    lists the key, [hlen] is 0 and [hgetall] is empty.  In no case does
    [hdel] remove a key from the hash store. *)
Theorem hdel_last_field_leaves_empty_hash now key field value db
    (Hhash : hash_store db !! key = Some {[field := value]})
    (Htype : (type now key db).1 = "hash") :
  let db' := (hdel key field db).2 in
  (hdel key field db).1 = true
  ∧ hash_store db' !! key = Some ∅
  ∧ (type now key db').1 = "hash"
  ∧ key ∈ (keys now db').1
  ∧ hlen key db' = 0
  ∧ hgetall key db' = ∅
  ∧ ∀ key' field' db0 k, is_Some (hash_store db0 !! k) →
      is_Some (hash_store (hdel key' field' db0).2 !! k).
Proof.
  intros db'.
  assert (hdel key field db
          = (true, set_hashes (insert key ∅) db)) as Hdel.
  { unfold hdel. rewrite Hhash. rewrite lookup_singleton_eq.
    by rewrite delete_singleton_eq. }
  assert (hash_store db' !! key = Some ∅) as Hempty.
  { unfold db'. rewrite Hdel. simpl. apply lookup_insert_eq. }
  assert ((type now key db').1 = "hash") as Htype'.
  { apply type_hash_iff in Htype as (Hlive & Hkv & Hl & _).
    apply type_hash_iff. unfold db'. rewrite Hdel. simpl.
    repeat split; try done. rewrite lookup_insert_eq. by eexists. }
  split; [by rewrite Hdel|]. split; [done|]. split; [done|].
  split; [|split; [|split]].
  - apply elem_of_keys. apply type_hash_iff in Htype' as (Hlive & _ & _ & Hh).
    pose proof (purgeExpired_keep now key db' Hlive) as Hp.
    apply at_key_eq_inv in Hp as (_ & _ & Hh' & _).
    rewrite <- Hh' in Hh. apply in_hash_true in Hh.
    unfold stores_holding. rewrite Hh.
    destruct (in_kv _ _), (in_list _ _); simpl; lia.
  - unfold hlen. rewrite Hempty. by rewrite map_size_empty.
  - unfold hgetall. by rewrite Hempty.
  - intros key' field' db0 k. apply hdel_keeps_keys.
Qed.

Lemma hdel_last_field_leaves_empty_hash_witness :
  let db := (hset "user" "name" "Bob" empty_db).2 in
  let db' := (hdel "user" "name" db).2 in
  (hdel "user" "name" db).1 = true
  ∧ hash_store db' !! "user" = Some ∅
  ∧ (type 5 "user" db').1 = "hash"
  ∧ "user" ∈ (keys 5 db').1
  ∧ hlen "user" db' = 0
  ∧ hgetall "user" db' = ∅
  ∧ ∀ key' field' db0 k, is_Some (hash_store db0 !! k) →
      is_Some (hash_store (hdel key' field' db0).2 !! k).
Proof.
  apply (hdel_last_field_leaves_empty_hash 5 "user" "name" "Bob"
           (hset "user" "name" "Bob" empty_db).2).
  - vm_compute. reflexivity.
  - vm_compute. reflexivity.
Defined.

(** ** List operations *)

Lemma rpop_snoc key value db l x :
  list_store db !! key = Some (l ++ [x])%list →
  rpop key value db = (true, x, set_lists (insert key l) db).
Proof.
  intros H. unfold rpop. rewrite H.
  by rewrite last_snoc, removelast_last.
Qed.

Lemma lpop_fails_iff key value db :
  (lpop key value db).1.1 = false ↔
  list_store db !! key = None ∨ list_store db !! key = Some [].
Proof.
  unfold lpop. destruct (list_store db !! key) as [[|x l]|]; simpl;
    intuition (try discriminate; auto).
Qed.

Lemma rpop_fails_iff key value db :
  (rpop key value db).1.1 = false ↔
  list_store db !! key = None ∨ list_store db !! key = Some [].
Proof.
  destruct (list_store db !! key) as [l|] eqn:Hl.
  - destruct l as [|y l'] using rev_ind.
    + unfold rpop. rewrite Hl. simpl. intuition.
    + rewrite (rpop_snoc _ _ _ _ _ Hl). simpl. split; [discriminate|].
      intros [[=]|[= H]]. by destruct l'.
  - unfold rpop. rewrite Hl. simpl. intuition.
Qed.

(** C8.  [lpop] and [rpop] fail exactly when the key is not in the list
    store or its list is empty, and then change neither the store nor the
    out-parameter; otherwise they hand out the first, respectively last,
    element and store the rest of the list under the key, also when the rest
    is empty.  Hence on a key without elements two [rpush] calls followed by
    three [lpop] calls give ["a"], then ["b"], then a failure. *)
Theorem lpop_rpop_spec key value db :
  ((lpop key value db).1.1 = false ↔
     list_store db !! key = None ∨ list_store db !! key = Some [])
  ∧ ((rpop key value db).1.1 = false ↔
       list_store db !! key = None ∨ list_store db !! key = Some [])
  ∧ ((lpop key value db).1.1 = false → lpop key value db = (false, value, db))
  ∧ ((rpop key value db).1.1 = false → rpop key value db = (false, value, db))
  ∧ (∀ x l, list_store db !! key = Some (x :: l) →
       lpop key value db = (true, x, set_lists (insert key l) db)
       ∧ list_store (lpop key value db).2 !! key = Some l)
  ∧ (∀ l x, list_store db !! key = Some (l ++ [x])%list →
       rpop key value db = (true, x, set_lists (insert key l) db)
       ∧ list_store (rpop key value db).2 !! key = Some l)
  ∧ (lget key db = [] →
       let db2 := rpush key "b" (rpush key "a" db) in
       let db3 := (lpop key value db2).2 in
       let db4 := (lpop key "a" db3).2 in
       (lpop key value db2).1 = (true, "a")
       ∧ (lpop key "a" db3).1 = (true, "b")
       ∧ list_store db4 !! key = Some []
       ∧ lpop key "b" db4 = (false, "b", db4)).
Proof.
  split; [apply lpop_fails_iff|]. split; [apply rpop_fails_iff|].
  split; [|split; [|split; [|split]]].
  - unfold lpop. by destruct (list_store db !! key) as [[|x l]|].
  - unfold rpop. destruct (list_store db !! key) as [l|]; [|done].
    by destruct (last l).
  - intros x l H. unfold lpop. rewrite H. simpl.
    split; [done|]. apply lookup_insert_eq.
  - intros l x H. rewrite (rpop_snoc _ _ _ _ _ H). simpl.
    split; [done|]. apply lookup_insert_eq.
  - intros Hempty db2 db3 db4.
    assert (list_store db2 !! key = Some ["a"; "b"]) as H2.
    { unfold db2, rpush, lget in *. simpl.
      rewrite lookup_insert_eq, lookup_insert_eq. simpl.
      destruct (list_store db !! key); by simplify_eq. }
    assert (lpop key value db2 = (true, "a", set_lists (insert key ["b"]) db2))
      as Hp1 by (unfold lpop; by rewrite H2).
    assert (list_store db3 !! key = Some ["b"]) as H3.
    { unfold db3. rewrite Hp1. simpl. apply lookup_insert_eq. }
    assert (lpop key "a" db3 = (true, "b", set_lists (insert key []) db3))
      as Hp2 by (unfold lpop; by rewrite H3).
    assert (list_store db4 !! key = Some []) as H4.
    { unfold db4. rewrite Hp2. simpl. apply lookup_insert_eq. }
    rewrite Hp1, Hp2. repeat split; try done.
    unfold lpop. by rewrite H4.
Qed.

Lemma lpop_rpop_spec_witness :
  let db := rpush "q" "b" (rpush "q" "a" empty_db) in
  (lpop "q" "" db = (true, "a", set_lists (insert "q" ["b"]) db)
   ∧ list_store (lpop "q" "" db).2 !! "q" = Some ["b"])
  ∧ (rpop "q" "" db = (true, "b", set_lists (insert "q" ["a"]) db)
     ∧ list_store (rpop "q" "" db).2 !! "q" = Some ["a"])
  ∧ (lpop "q" "" db).1 = (true, "a")
  ∧ lpop "q" "" empty_db = (false, "", empty_db).
Proof.
  pose proof (lpop_rpop_spec "q" "" (rpush "q" "b" (rpush "q" "a" empty_db)))
    as (_ & _ & _ & _ & Hl & Hr & _).
  pose proof (lpop_rpop_spec "q" "" empty_db) as (_ & _ & Hf & _ & _ & _ & Hs).
  split; [apply (Hl "a" ["b"]); vm_compute; reflexivity|].
  split; [apply (Hr ["a"] "b"); vm_compute; reflexivity|].
  split; [apply Hs; vm_compute; reflexivity|].
  apply Hf. vm_compute. reflexivity.
Defined.

(** *** expire *)

Lemma expire_unfold now now' key seconds db :
  expire now now' key seconds db =
    let p := purgeExpired now db in
    if bool_decide (stores_holding key p = 0%nat) then (false, p)
    else (true, set_expiry (insert key (now' + seconds * ticks_per_second)) p).
Proof.
  unfold expire, stores_holding. simpl.
  destruct (in_kv _ _), (in_list _ _), (in_hash _ _); reflexivity.
Qed.

(** C5.  [expire] first purges.  It returns [false] exactly when no type
    store then holds the key, and in that case the purged store is returned
    as it is; otherwise it returns [true] and records the deadline
    [now' + seconds] (in clock ticks), replacing an earlier one, whatever the
    sign of [seconds].  With [seconds ≤ 0] the key is erased from the three
    type stores and from the expiry map by the next purge, made at a later
    clock reading [later] (any reading from [now'] on when [seconds] is
    negative, a reading after [now'] when it is zero, since a key expires
    when the clock has passed its deadline): [get] and [type] then report it
    missing. *)
Theorem expire_spec now now' key seconds db :
  let p := purgeExpired now db in
  let r := expire now now' key seconds db in
  (r.1 = false ↔ stores_holding key p = 0%nat)
  ∧ (stores_holding key p = 0%nat → r = (false, p))
  ∧ (stores_holding key p ≠ 0%nat →
       r = (true, set_expiry (insert key (now' + seconds * ticks_per_second)) p)
       ∧ expiry_map r.2 !! key = Some (now' + seconds * ticks_per_second)
       ∧ kv_store r.2 = kv_store p ∧ list_store r.2 = list_store p
       ∧ hash_store r.2 = hash_store p)
  ∧ (stores_holding key p ≠ 0%nat → seconds ≤ 0 →
       ∀ later value, now' ≤ later → seconds < 0 ∨ now' < later →
         at_key key (purgeExpired later r.2) = absent
         ∧ (get later key value r.2).1 = (false, value)
         ∧ (type later key r.2).1 = "none").
Proof.
  intros p r. unfold r. rewrite expire_unfold. cbv zeta. fold p.
  clear r. clearbody p.
  case_bool_decide as H0; simpl.
  - split; [done|]. split; [done|]. split; intros H; by destruct H.
  - split; [split; [discriminate|intros H; by destruct H0]|].
    split; [intros H; by destruct H0|]. split.
    + intros _. repeat split; try done. apply lookup_insert_eq.
    + intros _ Hs later value Hlater Hstrict.
      set (q := set_expiry _ p).
      assert (at_key key (purgeExpired later q) = absent) as Habs.
      { apply purgeExpired_gone with (now' + seconds * ticks_per_second).
        - unfold q. simpl. apply lookup_insert_eq.
        - unfold ticks_per_second. lia. }
      split; [done|].
      apply at_key_absent_inv in Habs as (Hkv & Hl & Hh & _).
      split.
      * unfold get. by rewrite Hkv.
      * unfold type. simpl.
        apply in_kv_false in Hkv. apply in_list_false in Hl.
        apply in_hash_false in Hh. by rewrite Hkv, Hl, Hh.
Qed.

Lemma expire_spec_witness :
  let db := set "k" "v" empty_db in
  (expire 10 11 "k" 0 db).1 = true
  ∧ expiry_map (expire 10 11 "k" 0 db).2 !! "k" = Some 11
  ∧ (get 12 "k" "" (expire 10 11 "k" 0 db).2).1 = (false, "")
  ∧ (type 11 "k" (expire 10 11 "k" (-3) db).2).1 = "none"
  ∧ expire 10 11 "missing" 5 db = (false, purgeExpired 10 db).
Proof.
  pose proof (expire_spec 10 11 "k" 0 (set "k" "v" empty_db))
    as (_ & _ & Hset & Hzero).
  pose proof (expire_spec 10 11 "k" (-3) (set "k" "v" empty_db))
    as (_ & _ & _ & Hneg).
  pose proof (expire_spec 10 11 "missing" 5 (set "k" "v" empty_db))
    as (_ & Hmiss & _).
  assert (stores_holding "k" (purgeExpired 10 (set "k" "v" empty_db)) ≠ 0%nat)
    as Hheld by (vm_compute; discriminate).
  destruct (Hset Hheld) as (Hr & Hd & _).
  destruct (Hzero Hheld ltac:(lia) 12 "" ltac:(lia) ltac:(lia))
    as (_ & Hget & _).
  destruct (Hneg Hheld ltac:(lia) 11 "" ltac:(lia) ltac:(lia))
    as (_ & _ & Htype).
  split; [by rewrite Hr|]. split; [exact Hd|]. split; [exact Hget|].
  split; [exact Htype|].
  apply Hmiss. vm_compute. reflexivity.
Defined.

(** *** lrem *)

Lemma wrap32_small z : INT_MIN ≤ z ≤ INT_MAX → wrap32 z = z.
Proof.
  unfold wrap32, INT_MIN, INT_MAX. intros H.
  rewrite Z.mod_small; lia.
Qed.

Lemma int_neg_small c : INT_MIN < c ≤ INT_MAX → int_neg c = - c.
Proof.
  unfold int_neg. intros H. apply wrap32_small.
  unfold INT_MIN, INT_MAX in *. lia.
Qed.

Lemma remove_all_filter value lst :
  remove_all value lst = filter (λ x, x ≠ value) lst.
Proof.
  induction lst as [|x lst IH]; [done|].
  simpl. rewrite filter_cons. case_bool_decide; case_decide; try done.
  by rewrite IH.
Qed.

Lemma remove_all_length value lst :
  (length (remove_all value lst) + occurrences value lst = length lst)%nat.
Proof.
  induction lst as [|x lst IH]; [done|].
  simpl. case_bool_decide; simpl; lia.
Qed.

Lemma remove_all_occurrences value lst :
  occurrences value (remove_all value lst) = 0%nat.
Proof.
  induction lst as [|x lst IH]; [done|].
  simpl. case_bool_decide as Hx; [done|].
  simpl. by rewrite bool_decide_eq_false_2.
Qed.

Lemma remove_upto_nil n value : remove_upto n value [] = [].
Proof. by destruct n. Qed.

Lemma remove_upto_cons n value x lst :
  remove_upto (S n) value (x :: lst) =
    if bool_decide (x = value) then remove_upto n value lst
    else x :: remove_upto (S n) value lst.
Proof. reflexivity. Qed.

Lemma occurrences_cons value x lst :
  occurrences value (x :: lst) =
    if bool_decide (x = value) then S (occurrences value lst)
    else occurrences value lst.
Proof. reflexivity. Qed.

Lemma remove_upto_length n value lst :
  (length (remove_upto n value lst) + n `min` occurrences value lst
   = length lst)%nat.
Proof.
  revert n. induction lst as [|x lst IH]; intros n.
  - rewrite remove_upto_nil. simpl. lia.
  - destruct n as [|n]; [simpl; clear IH; lia|].
    rewrite remove_upto_cons, occurrences_cons.
    case_bool_decide.
    + specialize (IH n). simpl length. lia.
    + specialize (IH (S n)). simpl length. lia.
Qed.

(** The loop of [lrem] removes the first [limit - removed] occurrences and
    counts them. *)
Lemma lrem_scan_spec limit value lst : ∀ removed,
  removed ≤ limit →
  lrem_scan limit removed value lst =
    (remove_upto (Z.to_nat (limit - removed)) value lst,
     removed
     + Z.of_nat (Z.to_nat (limit - removed) `min` occurrences value lst)).
Proof.
  induction lst as [|x lst IH]; intros removed Hle.
  - rewrite remove_upto_nil. simpl lrem_scan. f_equal. simpl occurrences. lia.
  - simpl lrem_scan. case_bool_decide as Hlt.
    + replace (Z.to_nat (limit - removed))
        with (S (Z.to_nat (limit - (removed + 1)))) by lia.
      rewrite remove_upto_cons, occurrences_cons.
      case_bool_decide as Hx.
      * rewrite IH by lia. f_equal. lia.
      * rewrite IH by lia.
        replace (S (Z.to_nat (limit - (removed + 1))))
          with (Z.to_nat (limit - removed)) by lia.
        done.
    + replace (Z.to_nat (limit - removed)) with 0%nat by lia.
      simpl. f_equal. lia.
Qed.

(** X22.  On every [count] whose negation is an [int], and on lists whose
    length is an [int], [lrem] leaves what the specification asks for and
    returns the number of elements that are gone. *)
Lemma lrem_list_correct count value lst :
  INT_MIN < count ≤ INT_MAX →
  Z.of_nat (length lst) ≤ INT_MAX →
  (lrem_list count value lst).1 = lrem_spec count value lst
  ∧ (lrem_list count value lst).2
    = Z.of_nat (length lst) - Z.of_nat (length (lrem_spec count value lst))
  ∧ (lrem_list count value lst).2
    = Z.of_nat (if bool_decide (count = 0) then occurrences value lst
                else Z.to_nat (Z.abs count) `min` occurrences value lst).
Proof.
  intros Hc Hlen. unfold lrem_list, lrem_spec.
  case_bool_decide as H0; [|case_bool_decide as Hpos].
  - simpl. rewrite <- remove_all_filter.
    pose proof (remove_all_length value lst) as Hl.
    rewrite wrap32_small by (unfold INT_MIN, INT_MAX in *; lia).
    repeat split; lia.
  - rewrite lrem_scan_spec by lia. simpl. rewrite Z.sub_0_r.
    pose proof (remove_upto_length (Z.to_nat count) value lst) as Hl.
    replace (Z.abs count) with count by lia.
    repeat split; lia.
  - rewrite int_neg_small by done.
    rewrite lrem_scan_spec by lia. simpl. rewrite Z.sub_0_r.
    pose proof (remove_upto_length (Z.to_nat (- count)) value (reverse lst))
      as Hl.
    rewrite !length_reverse in *.
    assert (occurrences value (reverse lst) = occurrences value lst) as Hocc.
    { clear. induction lst as [|x lst IH]; [done|].
      rewrite reverse_cons. simpl. rewrite <- IH. clear IH.
      induction (reverse lst) as [|y l IH]; simpl.
      - by case_bool_decide.
      - rewrite IH. by repeat case_bool_decide. }
    rewrite Hocc in *.
    replace (Z.abs count) with (- count) by lia.
    repeat split; lia.
Qed.

Lemma lrem_absent key count value db :
  list_store db !! key = None → lrem key count value db = (0, db).
Proof. intros H. unfold lrem. by rewrite H. Qed.

(** X23.  Removing all occurrences a second time finds nothing to
    remove. *)
Lemma lrem_zero_twice key value db :
  Z.of_nat (length (lget key db)) ≤ INT_MAX →
  (lrem key 0 value (lrem key 0 value db).2).1 = 0.
Proof.
  intros Hlen. unfold lrem at 2. unfold lget in Hlen.
  destruct (list_store db !! key) as [lst|] eqn:Hl.
  - unfold lrem_list at 1. simpl. unfold lrem. simpl.
    rewrite lookup_insert_eq. unfold lrem_list. simpl.
    pose proof (remove_all_length value (remove_all value lst)) as H.
    rewrite remove_all_occurrences in H.
    replace (length (remove_all value (remove_all value lst)))
      with (length (remove_all value lst)) by lia.
    by rewrite Z.sub_diag.
  - simpl. by rewrite lrem_absent.
Qed.







(** ** Persistence: reading back what [dump] writes *)

(** *** Words and streams *)

Lemma string_length_app a b :
  String.length (a +:+ b) = (String.length a + String.length b)%nat.
Proof. induction a as [|c a IH]; simpl; [done|]. by rewrite IH. Qed.

Lemma no_space_cons c s :
  no_space (String c s) = true ↔ isspace c = false ∧ no_space s = true.
Proof.
  simpl. rewrite andb_true_iff, negb_true_iff. done.
Qed.

Lemma word_inv s :
  word s = true → ∃ c s', s = String c s' ∧ isspace c = false
                          ∧ no_space s' = true.
Proof.
  unfold word. rewrite andb_true_iff, negb_true_iff, bool_decide_eq_false.
  intros [Hne Hns]. destruct s as [|c s']; [done|].
  apply no_space_cons in Hns. by exists c, s'.
Qed.

Lemma word_no_space s : word s = true → no_space s = true.
Proof. unfold word. rewrite andb_true_iff. tauto. Qed.

Lemma read_word_app w r :
  no_space w = true → word_end r = true → read_word (w +:+ r) = (w, r).
Proof.
  intros Hw Hr. induction w as [|c w IH]; simpl.
  - destruct r as [|c r]; [done|]. simpl in *. by rewrite Hr.
  - apply no_space_cons in Hw as [Hc Hw]. by rewrite Hc, IH.
Qed.

Lemma skipws_app w r :
  no_space w = true → w ≠ EmptyString ∨ r = EmptyString →
  skipws (w +:+ r) = w +:+ r.
Proof.
  intros Hw Hne. destruct w as [|c w]; simpl.
  - destruct Hne as [?| ->]; done.
  - apply no_space_cons in Hw as [-> _]. done.
Qed.

(** Extracting a word that [dump] wrote after a blank. *)
Lemma extract_string_blank w r :
  no_space w = true → word_end r = true →
  w ≠ EmptyString ∨ r = EmptyString →
  extract_string (" " +:+ w +:+ r) = (w, r).
Proof.
  intros Hw Hr Hne. unfold extract_string.
  change (skipws (" " +:+ w +:+ r)) with (skipws (w +:+ r)).
  rewrite skipws_app by done. by apply read_word_app.
Qed.

Lemma word_end_spaced items : word_end (spaced items) = true.
Proof. by destruct items. Qed.

Lemma spaced_cons item items :
  spaced (item :: items) = " " +:+ item +:+ spaced items.
Proof.
  reflexivity.
Qed.

Lemma read_items_spaced items : ∀ fuel,
  Forall (λ x, word x = true) items →
  (String.length (spaced items) ≤ fuel)%nat →
  read_items fuel (spaced items) = items.
Proof.
  induction items as [|x items IH]; intros fuel Hall Hfuel.
  - by destruct fuel.
  - apply Forall_cons in Hall as [Hx Hall].
    rewrite spaced_cons in *.
    destruct (word_inv x Hx) as (c & x' & Hxeq & _).
    rewrite !string_length_app in Hfuel. simpl in Hfuel.
    destruct fuel as [|fuel]; [lia|].
    simpl read_items.
    rewrite extract_string_blank;
      [|by apply word_no_space|apply word_end_spaced|left; by rewrite Hxeq].
    rewrite Hxeq at 1. f_equal. apply IH; [done|lia].
Qed.

(** The loop [while (iss >> item)] gives back the items of a list record. *)
Lemma extract_items_spaced items :
  Forall (λ x, word x = true) items → extract_items (spaced items) = items.
Proof. intros H. unfold extract_items. by apply read_items_spaced. Qed.

(** The fuel given to [read_items] never runs out: more rounds than there are
    characters change nothing. *)
Lemma read_items_fuel s : ∀ fuel,
  (String.length s ≤ fuel)%nat → read_items fuel s = extract_items s.
Proof.
  unfold extract_items.
  assert (∀ s, (String.length (skipws s) ≤ String.length s)%nat) as Hskip.
  { clear. induction s as [|c s IH]; simpl; [done|].
    destruct (isspace c); simpl; lia. }
  assert (∀ s w r, read_word s = (w, r) →
            String.length s = (String.length w + String.length r)%nat) as Hread.
  { clear. induction s as [|c s IH]; intros w r; simpl.
    - by intros [= <- <-].
    - destruct (isspace c); [by intros [= <- <-]|].
      destruct (read_word s) as [w' r'] eqn:Hs. intros [= <- <-].
      simpl. by rewrite (IH w' r'). }
  assert (∀ n s fuel, (String.length s ≤ n)%nat → (n ≤ fuel)%nat →
            read_items fuel s = read_items n s) as Hgen.
  { induction n as [|n IH]; intros s' fuel Hs Hf.
    - destruct s'; [|simpl in Hs; lia]. by destruct fuel.
    - destruct fuel as [|fuel]; [lia|]. simpl. unfold extract_string.
      destruct (read_word (skipws s')) as [w r] eqn:Hw.
      destruct w as [|c w]; [done|]. f_equal.
      apply Hread in Hw. specialize (Hskip s'). simpl in Hw.
      apply IH; lia. }
  intros fuel Hf. by apply Hgen.
Qed.

Lemma split_colon_field field value :
  no_colon field = true →
  split_colon (field +:+ ":" +:+ value) = Some (field, value).
Proof.
  intros Hf. induction field as [|c field IH]; simpl; [done|].
  simpl in Hf. apply andb_true_iff in Hf as [Hc Hf].
  apply negb_true_iff in Hc. rewrite Hc. by rewrite IH.
Qed.

(** *** Lines *)

Lemma getlines_line line text :
  no_newline line = true →
  getlines (line +:+ String newline text) = line :: getlines text.
Proof.
  intros Hl. induction line as [|c line IH]; simpl.
  - done.
  - simpl in Hl. apply andb_true_iff in Hl as [Hc Hl].
    apply negb_true_iff in Hc. rewrite Hc. by rewrite IH.
Qed.

Lemma getlines_unlines lines :
  Forall (λ l, no_newline l = true) lines → getlines (unlines lines) = lines.
Proof.
  induction 1 as [|l lines Hl _ IH]; [done|].
  simpl. rewrite getlines_line by done. by rewrite IH.
Qed.

Lemma no_newline_app a b :
  no_newline (a +:+ b) = no_newline a && no_newline b.
Proof.
  induction a as [|c a IH]; simpl; [done|]. by rewrite IH, andb_assoc.
Qed.

Lemma no_space_no_newline s : no_space s = true → no_newline s = true.
Proof.
  induction s as [|c s IH]; [done|].
  intros [Hc Hs]%no_space_cons. simpl. rewrite IH by done.
  rewrite andb_true_r, negb_true_iff, bool_decide_eq_false.
  intros ->. discriminate.
Qed.

Lemma no_newline_spaced items :
  Forall (λ x, no_space x = true) items → no_newline (spaced items) = true.
Proof.
  induction 1 as [|x items Hx _ IH]; [done|].
  rewrite spaced_cons.
  change (" " +:+ x +:+ spaced items) with (String " " (x +:+ spaced items)).
  simpl. rewrite no_newline_app, IH, (no_space_no_newline x Hx). done.
Qed.

(** *** One record *)

Lemma string_app_nil_r s : s +:+ "" = s.
Proof.
  induction s as [|c s IH]; [done|].
  change (String c s +:+ "") with (String c (s +:+ "")). by f_equal.
Qed.

Lemma no_space_app a b : no_space (a +:+ b) = no_space a && no_space b.
Proof.
  induction a as [|c a IH]; simpl; [done|]. by rewrite IH, andb_assoc.
Qed.

(** Extracting the value that closes a string record; it may be empty. *)
Lemma extract_string_last v :
  no_space v = true → extract_string (" " +:+ v) = (v, "").
Proof.
  intros Hv. rewrite <- (string_app_nil_r v) at 1.
  apply extract_string_blank; auto.
Qed.

Lemma load_line_kv uninit key value db :
  word key = true → no_space value = true →
  load_line uninit (kv_line (key, value)) db = set_kv (insert key value) db.
Proof.
  intros Hk Hv. destruct (word_inv key Hk) as (c & k' & Hkeq & _).
  unfold load_line.
  change (extract_char (kv_line (key, value)))
    with (Some "K"%char, " " +:+ key +:+ " " +:+ value).
  cbv beta iota zeta delta [default]. rewrite bool_decide_eq_true_2 by done.
  rewrite extract_string_blank;
    [|by apply word_no_space|done|left; by rewrite Hkeq].
  by rewrite extract_string_last.
Qed.

Lemma load_line_list uninit key items db :
  word key = true → Forall (λ x, word x = true) items →
  load_line uninit (list_line (key, items)) db = set_lists (insert key items) db.
Proof.
  intros Hk Hitems. destruct (word_inv key Hk) as (c & k' & Hkeq & _).
  unfold load_line.
  change (extract_char (list_line (key, items)))
    with (Some "L"%char, " " +:+ key +:+ spaced items).
  cbv beta iota zeta delta [default]. rewrite bool_decide_eq_false_2 by done.
  rewrite bool_decide_eq_true_2 by done.
  rewrite extract_string_blank;
    [|by apply word_no_space|apply word_end_spaced|left; by rewrite Hkeq].
  by rewrite extract_items_spaced.
Qed.

Lemma field_text_word fv :
  no_space fv.1 = true → no_space fv.2 = true → word (field_text fv) = true.
Proof.
  intros Hf Hv. unfold word, field_text.
  rewrite andb_true_iff, negb_true_iff, bool_decide_eq_false. split.
  - by destruct (fv.1).
  - rewrite no_space_app, Hf. simpl. exact Hv.
Qed.

Lemma add_pair_fields fields : ∀ hash,
  Forall (λ fv, no_colon fv.1 = true) fields →
  foldl add_pair hash (field_text <$> fields) = assign_all hash fields.
Proof.
  unfold assign_all.
  induction fields as [|fv fields IH]; intros hash Hall; [done|].
  apply Forall_cons in Hall as [Hfv Hall]. simpl.
  replace (add_pair hash (field_text fv)) with (<[fv.1 := fv.2]> hash);
    [by rewrite IH|].
  unfold add_pair, field_text. by rewrite split_colon_field.
Qed.

Lemma load_line_hash uninit key fields db :
  word key = true →
  Forall (λ fv, no_space fv.1 = true ∧ no_colon fv.1 = true
                ∧ no_space fv.2 = true) fields →
  load_line uninit (hash_line_of (key, fields)) db
  = set_hashes (insert key (assign_all ∅ fields)) db.
Proof.
  intros Hk Hfields. destruct (word_inv key Hk) as (c & k' & Hkeq & _).
  unfold load_line.
  change (extract_char (hash_line_of (key, fields)))
    with (Some "H"%char,
          " " +:+ key
          +:+ concat_strings ((λ fv, " " +:+ field_text fv) <$> fields)).
  replace (concat_strings ((λ fv, " " +:+ field_text fv) <$> fields))
    with (spaced (field_text <$> fields))
    by (unfold spaced; by rewrite <- list_fmap_compose).
  cbv beta iota zeta delta [default]. rewrite !bool_decide_eq_false_2 by done.
  rewrite bool_decide_eq_true_2 by done.
  rewrite extract_string_blank;
    [|by apply word_no_space|apply word_end_spaced|left; by rewrite Hkeq].
  rewrite extract_items_spaced.
  - rewrite add_pair_fields; [done|].
    eapply Forall_impl; [exact Hfields|]. by intros fv (_ & ? & _).
  - apply Forall_fmap. eapply Forall_impl; [exact Hfields|].
    intros fv (? & _ & ?). by apply field_text_word.
Qed.

(** *** All records *)

Lemma load_lines_app uninit lines1 lines2 : ∀ n db,
  load_lines uninit n (lines1 ++ lines2) db
  = load_lines uninit (n + length lines1) lines2
      (load_lines uninit n lines1 db).
Proof.
  induction lines1 as [|l lines1 IH]; intros n db; simpl.
  - by rewrite Nat.add_0_r.
  - rewrite IH. f_equal. lia.
Qed.

Lemma load_lines_kv uninit entries : ∀ n kv ls hs ex,
  Forall (λ e, word e.1 = true ∧ no_space e.2 = true) entries →
  load_lines uninit n (kv_line <$> entries) (mkDB kv ls hs ex)
  = mkDB (assign_all kv entries) ls hs ex.
Proof.
  induction entries as [|[k v] entries IH]; intros n kv ls hs ex Hall; [done|].
  apply Forall_cons in Hall as [[Hk Hv] Hall]. simpl.
  rewrite load_line_kv by done. unfold set_kv. simpl. by rewrite IH.
Qed.

Lemma load_lines_list uninit entries : ∀ n kv ls hs ex,
  Forall (λ e, word e.1 = true ∧ Forall (λ x, word x = true) e.2) entries →
  load_lines uninit n (list_line <$> entries) (mkDB kv ls hs ex)
  = mkDB kv (assign_all ls entries) hs ex.
Proof.
  induction entries as [|[k l] entries IH]; intros n kv ls hs ex Hall; [done|].
  apply Forall_cons in Hall as [[Hk Hl] Hall]. simpl.
  rewrite load_line_list by done. unfold set_lists. simpl. by rewrite IH.
Qed.

(** Assignments to pairwise different keys build the map of the entries. *)
Lemma assign_all_NoDup {A} (entries : list (string * A)) : ∀ m,
  NoDup entries.*1 → assign_all m entries = list_to_map entries ∪ m.
Proof.
  unfold assign_all.
  induction entries as [|[k x] entries IH]; intros m Hnd.
  - simpl. by rewrite (left_id_L ∅ (∪)).
  - rewrite fmap_cons in Hnd. apply NoDup_cons in Hnd as [Hk Hnd].
    simpl. rewrite IH by done.
    rewrite <- insert_union_l. symmetry. apply insert_union_r.
    by apply not_elem_of_list_to_map_1.
Qed.

Lemma assign_all_map_to_list {A} (m : gmap string A) :
  assign_all ∅ (map_to_list m) = m.
Proof.
  rewrite assign_all_NoDup by apply NoDup_fst_map_to_list.
  by rewrite list_to_map_to_list, (right_id_L ∅ (∪)).
Qed.

Lemma load_line_hash_map uninit key h db :
  word key = true →
  map_Forall (λ f v, no_space f = true ∧ no_colon f = true
                     ∧ no_space v = true) h →
  load_line uninit (hash_line (key, h)) db = set_hashes (insert key h) db.
Proof.
  intros Hk Hh. unfold hash_line. simpl fst. simpl snd.
  rewrite load_line_hash; [by rewrite assign_all_map_to_list|done|].
  apply map_Forall_to_list in Hh. eapply Forall_impl; [exact Hh|].
  by intros [f v].
Qed.

Lemma load_lines_hash uninit entries : ∀ n kv ls hs ex,
  Forall (λ e, word e.1 = true
               ∧ map_Forall (λ f v, no_space f = true ∧ no_colon f = true
                                    ∧ no_space v = true) e.2) entries →
  load_lines uninit n (hash_line <$> entries) (mkDB kv ls hs ex)
  = mkDB kv ls (assign_all hs entries) ex.
Proof.
  induction entries as [|[k h] entries IH]; intros n kv ls hs ex Hall; [done|].
  apply Forall_cons in Hall as [[Hk Hh] Hall].
  rewrite fmap_cons. cbn [load_lines].
  rewrite load_line_hash_map by done.
  unfold set_hashes. simpl. by rewrite IH.
Qed.

(** *** The whole file *)

Lemma kv_line_no_newline e :
  no_space e.1 = true → no_space e.2 = true → no_newline (kv_line e) = true.
Proof.
  intros H1 H2. unfold kv_line.
  rewrite !no_newline_app.
  rewrite (no_space_no_newline e.1), (no_space_no_newline e.2) by done.
  reflexivity.
Qed.

Lemma list_line_no_newline e :
  no_space e.1 = true → Forall (λ x, no_space x = true) e.2 →
  no_newline (list_line e) = true.
Proof.
  intros H1 H2. unfold list_line. fold (spaced e.2).
  rewrite !no_newline_app, no_newline_spaced by done.
  rewrite (no_space_no_newline e.1) by done.
  reflexivity.
Qed.

Lemma hash_line_no_newline e :
  no_space e.1 = true →
  map_Forall (λ f v, no_space f = true ∧ no_colon f = true
                     ∧ no_space v = true) e.2 →
  no_newline (hash_line e) = true.
Proof.
  intros H1 H2. unfold hash_line, hash_line_of. simpl fst. simpl snd.
  replace (concat_strings ((λ fv, " " +:+ field_text fv) <$> map_to_list e.2))
    with (spaced (field_text <$> map_to_list e.2))
    by (unfold spaced; by rewrite <- list_fmap_compose).
  rewrite !no_newline_app, no_newline_spaced, (no_space_no_newline e.1);
    [reflexivity|done|].
  apply Forall_fmap. apply map_Forall_to_list in H2.
  eapply Forall_impl; [exact H2|]. intros [f v] (? & _ & ?).
  apply word_no_space. by apply field_text_word.
Qed.

(** Reading the text of [dump] into cleared stores rebuilds the three type
    stores. *)
Lemma load_lines_dump_text uninit db :
  representable db →
  load_lines uninit 0 (getlines (dump_text db)) (mkDB ∅ ∅ ∅ (expiry_map db))
  = db.
Proof.
  intros (Hkv & Hls & Hhs). unfold dump_text.
  apply map_Forall_to_list in Hkv, Hls, Hhs.
  rewrite getlines_unlines.
  - rewrite !load_lines_app.
    rewrite load_lines_kv, load_lines_list, load_lines_hash.
    + rewrite !assign_all_map_to_list. by destruct db.
    + eapply Forall_impl; [exact Hhs|]. by intros [k h].
    + eapply Forall_impl; [exact Hls|]. by intros [k l].
    + eapply Forall_impl; [exact Hkv|]. by intros [k v].
  - rewrite !Forall_app. repeat split; apply Forall_fmap.
    + eapply Forall_impl; [exact Hkv|]. intros [k v] [Hk Hv].
      apply kv_line_no_newline; [by apply word_no_space|done].
    + eapply Forall_impl; [exact Hls|]. intros [k l] [Hk Hl].
      apply list_line_no_newline; [by apply word_no_space|].
      eapply Forall_impl; [exact Hl|]. intros x. apply word_no_space.
    + eapply Forall_impl; [exact Hhs|]. intros [k h] [Hk Hh].
      apply hash_line_no_newline; [by apply word_no_space|done].
Qed.

(** *** Any order of iteration

    The order in which [dump] meets the entries of a map, and the fields of
    a hash, is not fixed by the source.  Whatever it is, [load] rebuilds the
    same stores. *)

Lemma assign_all_perm {A} (m : gmap string A) entries :
  entries ≡ₚ map_to_list m → assign_all ∅ entries = m.
Proof.
  intros Hperm. rewrite assign_all_NoDup.
  - rewrite (right_id_L ∅ (∪)). symmetry. by apply list_to_map_flip.
  - rewrite Hperm. apply NoDup_fst_map_to_list.
Qed.

Lemma hash_line_of_no_newline e :
  no_space e.1 = true →
  Forall (λ fv, no_space fv.1 = true ∧ no_colon fv.1 = true
                ∧ no_space fv.2 = true) e.2 →
  no_newline (hash_line_of e) = true.
Proof.
  intros H1 H2. unfold hash_line_of.
  replace (concat_strings ((λ fv, " " +:+ field_text fv) <$> e.2))
    with (spaced (field_text <$> e.2))
    by (unfold spaced; by rewrite <- list_fmap_compose).
  rewrite !no_newline_app, no_newline_spaced, (no_space_no_newline e.1);
    [reflexivity|done|].
  apply Forall_fmap. eapply Forall_impl; [exact H2|].
  intros [f v] (? & _ & ?). apply word_no_space. by apply field_text_word.
Qed.

Lemma load_lines_hash_of uninit entries : ∀ n kv ls hs ex,
  Forall (λ e, word e.1 = true
               ∧ Forall (λ fv, no_space fv.1 = true ∧ no_colon fv.1 = true
                               ∧ no_space fv.2 = true) e.2) entries →
  load_lines uninit n (hash_line_of <$> entries) (mkDB kv ls hs ex)
  = mkDB kv ls (assign_all hs ((λ e, (e.1, assign_all ∅ e.2)) <$> entries)) ex.
Proof.
  induction entries as [|[k fvs] entries IH]; intros n kv ls hs ex Hall;
    [done|].
  apply Forall_cons in Hall as [[Hk Hh] Hall].
  rewrite !fmap_cons. cbn [load_lines].
  rewrite load_line_hash by done.
  unfold set_hashes. simpl. by rewrite IH.
Qed.

(** [fields_of hss hs]: the records [hss] list the hashes [hs], each with
    its fields in some order. *)
Lemma fields_of_assign hss (hs : list (string * gmap string string)) :
  Forall2 (λ e e', e.1 = e'.1 ∧ e.2 ≡ₚ map_to_list e'.2) hss hs →
  (λ e, (e.1, assign_all ∅ e.2)) <$> hss = hs.
Proof.
  induction 1 as [|[k fvs] [k' h] hss hs [Hk Hf] _ IH]; [done|].
  cbn [fst snd] in *. subst k'. rewrite fmap_cons. cbn [fst snd].
  by rewrite (assign_all_perm h fvs Hf), IH.
Qed.

(** X24.  Whatever the order in which the entries of the three stores and
    the fields of each hash are written, reading the records back into
    cleared stores rebuilds a store that the format can represent. *)
Lemma load_lines_any_order uninit db kvs lss hss hs :
  representable db →
  kvs ≡ₚ map_to_list (kv_store db) →
  lss ≡ₚ map_to_list (list_store db) →
  hs ≡ₚ map_to_list (hash_store db) →
  Forall2 (λ e e', e.1 = e'.1 ∧ e.2 ≡ₚ map_to_list e'.2) hss hs →
  load_lines uninit 0
    (getlines (unlines ((kv_line <$> kvs) ++ (list_line <$> lss)
                        ++ (hash_line_of <$> hss))%list))
    (mkDB ∅ ∅ ∅ (expiry_map db))
  = db.
Proof.
  intros (Hkv & Hls & Hhs) Pkv Pls Phs Hfields.
  apply map_Forall_to_list in Hkv, Hls, Hhs.
  rewrite <- Pkv in Hkv. rewrite <- Pls in Hls. rewrite <- Phs in Hhs.
  assert (Forall (λ e, word e.1 = true
                       ∧ Forall (λ fv, no_space fv.1 = true
                                       ∧ no_colon fv.1 = true
                                       ∧ no_space fv.2 = true) e.2) hss) as Hhss.
  { clear -Hhs Hfields.
    induction Hfields as [|[k fvs] [k' h] hss hs [Hk Hf] _ IH]; [done|].
    apply Forall_cons in Hhs as [[Hw Hh] Hhs]. cbn [fst snd] in *. subst k'.
    constructor; [|by apply IH]. cbn [fst snd]. split; [done|].
    rewrite Hf. apply map_Forall_to_list in Hh.
    eapply Forall_impl; [exact Hh|]. by intros [f v]. }
  rewrite getlines_unlines.
  - rewrite !load_lines_app.
    rewrite load_lines_kv, load_lines_list, load_lines_hash_of.
    + rewrite (fields_of_assign _ _ Hfields).
      rewrite (assign_all_perm (kv_store db) kvs Pkv).
      rewrite (assign_all_perm (list_store db) lss Pls).
      rewrite (assign_all_perm (hash_store db) hs Phs). by destruct db.
    + done.
    + eapply Forall_impl; [exact Hls|]. by intros [k l].
    + eapply Forall_impl; [exact Hkv|]. by intros [k v].
  - rewrite !Forall_app. repeat split; apply Forall_fmap.
    + eapply Forall_impl; [exact Hkv|]. intros [k v] [Hk Hv].
      apply kv_line_no_newline; [by apply word_no_space|done].
    + eapply Forall_impl; [exact Hls|]. intros [k l] [Hk Hl].
      apply list_line_no_newline; [by apply word_no_space|].
      eapply Forall_impl; [exact Hl|]. intros x. apply word_no_space.
    + eapply Forall_impl; [exact Hhss|]. intros [k fvs] [Hk Hh].
      apply hash_line_of_no_newline; [by apply word_no_space|done].
Qed.

(** The round trip fails on a list that holds the empty string, although
    nothing in the store contains a blank or a colon: [dump] writes ["L k "],
    and [load] reads back a list without items. *)
Lemma roundtrip_loses_empty_item :
  let db := rpush "k" "" empty_db in
  let fs := (dump "f" db (mkFS ∅ ∅)).2 in
  let db' := (load (λ _, "X"%char) "f" (flushAll db).2 fs).2 in
  plain_db db
  ∧ (dump "f" db (mkFS ∅ ∅)).1 = true
  ∧ (load (λ _, "X"%char) "f" (flushAll db).2 fs).1 = true
  ∧ lget "k" db = [""]
  ∧ lget "k" db' = [].
Proof.
  split; [|vm_compute; repeat split; reflexivity].
  unfold plain_db. apply (bool_decide_unpack _). vm_compute. exact I.
Qed.

(** C3.  Persistence round trip.  When the keys and the list items of a
    store are non-empty, none of its keys, values, items, hash fields and hash
    values contains a white-space character, and no hash field contains a
    colon, then a successful [dump], [flushAll] and [load] from the same path
    give back the three type stores (and leave the expiry map as it was), so
    [get], [lget] and [hgetall] answer as before and [keys] lists the same
    keys, in an order that is not fixed. *)
Theorem dump_flushAll_load_roundtrip uninit filename db fs
    (Hrep : representable db)
    (Hdump : (dump filename db fs).1 = true) :
  let fs' := (dump filename db fs).2 in
  let db' := (load uninit filename (flushAll db).2 fs').2 in
  (load uninit filename (flushAll db).2 fs').1 = true
  ∧ db' = db
  ∧ (∀ now, (keys now db').1 ≡ₚ (keys now db).1)
  ∧ (∀ now key value, (get now key value db').1 = (get now key value db).1)
  ∧ (∀ key, lget key db' = lget key db)
  ∧ (∀ key, hgetall key db' = hgetall key db).
Proof.
  intros fs' db'.
  assert (load uninit filename (flushAll db).2 fs' = (true, db)) as Hload.
  { unfold fs', dump in *. case_bool_decide as Hden; [done|].
    unfold load. simpl. rewrite bool_decide_eq_false_2 by done.
    rewrite lookup_insert_eq. by rewrite load_lines_dump_text. }
  unfold db'. rewrite Hload. simpl. repeat split; done.
Qed.

Lemma dump_flushAll_load_roundtrip_witness :
  let db :=
    (hset "user:100" "email" "bob@example.com"
       (rpush "fruits" "banana" (rpush "fruits" "apple"
          (set "name" "Alice" empty_db)))).2 in
  let fs' := (dump "dump.rdb" db (mkFS ∅ ∅)).2 in
  (load (λ _, "X"%char) "dump.rdb" (flushAll db).2 fs').2 = db.
Proof.
  refine (proj1 (proj2 (dump_flushAll_load_roundtrip (λ _, "X"%char) "dump.rdb"
    (hset "user:100" "email" "bob@example.com"
       (rpush "fruits" "banana" (rpush "fruits" "apple"
          (set "name" "Alice" empty_db)))).2 (mkFS ∅ ∅) _ _))).
  - unfold representable. apply (bool_decide_unpack _). vm_compute. exact I.
  - reflexivity.
Defined.

(** ** load *)

Lemma load_line_cases uninit line db :
  load_line uninit line db =
    let iss := (extract_string (extract_char line).2).2 in
    if bool_decide (line_tag uninit line = "K"%char) then
      set_kv (insert (line_key line) (extract_string iss).1) db
    else if bool_decide (line_tag uninit line = "L"%char) then
      set_lists (insert (line_key line) (extract_items iss)) db
    else if bool_decide (line_tag uninit line = "H"%char) then
      set_hashes (insert (line_key line) (foldl add_pair ∅ (extract_items iss))) db
    else db.
Proof.
  unfold load_line, line_tag, line_key.
  destruct (extract_char line) as [c iss]. simpl.
  destruct (extract_string iss) as [key iss']. simpl.
  by destruct (extract_string iss') as [value iss''].
Qed.

(** A line whose first visible character is not a type tag is skipped. *)
Lemma load_line_skip uninit line db c rest :
  extract_char line = (Some c, rest) →
  c ≠ "K"%char → c ≠ "L"%char → c ≠ "H"%char →
  load_line uninit line db = db.
Proof.
  intros Hc HK HL HH. rewrite load_line_cases. unfold line_tag.
  rewrite Hc. simpl. by rewrite !bool_decide_eq_false_2.
Qed.

Lemma load_line_expiry uninit line db :
  expiry_map (load_line uninit line db) = expiry_map db.
Proof.
  rewrite load_line_cases. simpl. by repeat case_bool_decide.
Qed.

Lemma load_lines_expiry uninit lines : ∀ n db,
  expiry_map (load_lines uninit n lines db) = expiry_map db.
Proof.
  induction lines as [|l lines IH]; intros n db; [done|].
  simpl. by rewrite IH, load_line_expiry.
Qed.

(** A line with a type tag binds its key, whatever follows the tag. *)
Lemma load_line_binds uninit line db :
  (line_tag uninit line = "K"%char →
     is_Some (kv_store (load_line uninit line db) !! line_key line))
  ∧ (line_tag uninit line = "L"%char →
       is_Some (list_store (load_line uninit line db) !! line_key line))
  ∧ (line_tag uninit line = "H"%char →
       is_Some (hash_store (load_line uninit line db) !! line_key line)).
Proof.
  rewrite load_line_cases. simpl. repeat split; intros ->; simpl;
    rewrite lookup_insert_eq; by eexists.
Qed.


(** *** Lines read as words *)



















(** ** Type exclusivity *)

Lemma typed_exclusive ty db : typed ty db → exclusive db.
Proof.
  intros (Hkv & Hl & Hh) key. unfold stores_holding.
  destruct (in_kv key db) eqn:Ekv, (in_list key db) eqn:El,
    (in_hash key db) eqn:Eh; simpl; try lia.
  all: repeat match goal with
       | H : in_kv _ _ = true |- _ => apply in_kv_true, Hkv in H
       | H : in_list _ _ = true |- _ => apply in_list_true, Hl in H
       | H : in_hash _ _ = true |- _ => apply in_hash_true, Hh in H
       end; congruence.
Qed.

Lemma typed_empty ty ex : typed ty (mkDB ∅ ∅ ∅ ex).
Proof.
  repeat split; intros key [x Hx]; simpl in Hx; by rewrite lookup_empty in Hx.
Qed.

Lemma typed_sub ty db' db : stores_sub db' db → typed ty db → typed ty db'.
Proof.
  intros (S1 & S2 & S3) (T1 & T2 & T3). repeat split; auto.
Qed.

Lemma stores_sub_refl db : stores_sub db db.
Proof. by repeat split. Qed.

Lemma stores_sub_purge now db : stores_sub (purgeExpired now db) db.
Proof.
  repeat split; intros key Hk;
    pose proof (at_key_purgeExpired now key db) as Hp;
    destruct (expiry_map db !! key) as [d|];
    try case_bool_decide;
    first [ apply at_key_absent_inv in Hp as (H1 & H2 & H3 & _);
            rewrite ?H1, ?H2, ?H3 in Hk; by destruct Hk
          | apply at_key_eq_inv in Hp as (H1 & H2 & H3 & _);
            by rewrite <- ?H1, <- ?H2, <- ?H3 ].
Qed.

Lemma typed_purge ty now db : typed ty db → typed ty (purgeExpired now db).
Proof. apply typed_sub, stores_sub_purge. Qed.

Lemma typed_set_kv ty key value db :
  ty key = TString → typed ty db → typed ty (set_kv (insert key value) db).
Proof.
  intros Hty (T1 & T2 & T3). repeat split; simpl; auto.
  intros k. destruct (decide (key = k)) as [<-|Hne]; [done|].
  rewrite lookup_insert_ne by done. auto.
Qed.

Lemma typed_set_lists ty key lst db :
  ty key = TList → typed ty db → typed ty (set_lists (insert key lst) db).
Proof.
  intros Hty (T1 & T2 & T3). repeat split; simpl; auto.
  intros k. destruct (decide (key = k)) as [<-|Hne]; [done|].
  rewrite lookup_insert_ne by done. auto.
Qed.

Lemma typed_set_hashes ty key h db :
  ty key = THash → typed ty db → typed ty (set_hashes (insert key h) db).
Proof.
  intros Hty (T1 & T2 & T3). repeat split; simpl; auto.
  intros k. destruct (decide (key = k)) as [<-|Hne]; [done|].
  rewrite lookup_insert_ne by done. auto.
Qed.

Lemma typed_list_key ty key lst db :
  typed ty db → list_store db !! key = Some lst → ty key = TList.
Proof. intros (_ & T2 & _) H. apply T2. by eexists. Qed.

Lemma typed_hash_key ty key h db :
  typed ty db → hash_store db !! key = Some h → ty key = THash.
Proof. intros (_ & _ & T3) H. apply T3. by eexists. Qed.

Lemma move_entry_is_Some {A} oldKey newKey (m : gmap string A) key :
  is_Some (move_entry oldKey newKey m !! key) →
  (key = newKey ∧ is_Some (m !! oldKey)) ∨ is_Some (m !! key).
Proof.
  unfold move_entry. destruct (m !! oldKey) as [x|] eqn:Hold; [|by right].
  destruct (decide (key = oldKey)) as [->|Hne].
  - rewrite lookup_delete_eq. by intros [? ?].
  - rewrite lookup_delete_ne by done.
    destruct (decide (newKey = key)) as [<-|Hne'].
    + intros _. left. split; [done|by eexists].
    + rewrite lookup_insert_ne by done. by right.
Qed.

Lemma typed_rename ty now oldKey newKey db :
  ty oldKey = ty newKey → typed ty db →
  typed ty (rename now oldKey newKey db).2.
Proof.
  intros Hty Ht. apply (typed_purge ty now) in Ht.
  rewrite rename_unfold. simpl. destruct Ht as (T1 & T2 & T3).
  repeat split; simpl; intros key [[-> Hold]|Hk]%move_entry_is_Some; auto.
  - rewrite <- Hty. auto.
  - rewrite <- Hty. auto.
  - rewrite <- Hty. auto.
Qed.

Lemma typed_hmset ty key fieldValues : ∀ db,
  ty key = THash → typed ty db → typed ty (hmset key fieldValues db).2.
Proof.
  unfold hmset. simpl.
  induction fieldValues as [|fv fvs IH]; intros db Hty Ht; [done|].
  simpl. apply IH; [done|]. by apply typed_set_hashes.
Qed.

Lemma typed_load_line ty uninit line db :
  line_respects ty uninit line = true → typed ty db →
  typed ty (load_line uninit line db).
Proof.
  unfold line_respects. rewrite load_line_cases. simpl.
  repeat case_bool_decide; try done; intros _ Ht.
  - by apply typed_set_kv.
  - by apply typed_set_lists.
  - by apply typed_set_hashes.
Qed.

Lemma typed_load_lines ty uninit lines : ∀ n db,
  lines_respect ty uninit n lines = true → typed ty db →
  typed ty (load_lines uninit n lines db).
Proof.
  induction lines as [|l lines IH]; intros n db Hr Ht; [done|].
  simpl in *. apply andb_true_iff in Hr as [Hl Hr].
  apply IH; [done|]. by apply typed_load_line.
Qed.

(** Every call that respects the type assignment keeps each key in the store
    of its type. *)
Lemma typed_exec ty w c :
  respects ty w c = true → typed ty (w_db w) → typed ty (w_db (exec w c)).
Proof.
  destruct w as [db fs]. intros Hr Ht. simpl in Ht.
  destruct c; cbn [exec respects w_db w_fs] in *; try done;
    try (apply bool_decide_eq_true in Hr).
  - apply typed_empty.
  - by apply typed_set_kv.
  - unfold get. by destruct (kv_store _ !! _); apply typed_purge.
  - by apply typed_purge.
  - by apply typed_purge.
  - apply (typed_purge ty now) in Ht. rewrite del_unfold. simpl.
    eapply typed_sub; [|exact Ht].
    repeat split; simpl; intros k [x Hx]; apply lookup_delete_Some in Hx;
      destruct Hx as [_ Hx]; by eexists.
  - apply (typed_purge ty now) in Ht. rewrite expire_unfold. cbv zeta.
    case_bool_decide; [done|]. simpl. by destruct Ht as (? & ? & ?).
  - by apply typed_purge.
  - by apply typed_rename.
  - unfold lpush. by apply typed_set_lists.
  - unfold rpush. by apply typed_set_lists.
  - unfold lpop. destruct (list_store db !! key) as [[|x l]|] eqn:Hl; try done.
    simpl. apply typed_set_lists; [|done]. by eapply typed_list_key.
  - unfold rpop. destruct (list_store db !! key) as [l|] eqn:Hl; [|done].
    destruct (last l); [|done].
    simpl. apply typed_set_lists; [|done]. by eapply typed_list_key.
  - unfold lrem. destruct (list_store db !! key) as [l|] eqn:Hl; [|done].
    destruct (lrem_list count value l). simpl.
    apply typed_set_lists; [|done]. by eapply typed_list_key.
  - unfold lset. destruct (list_store db !! key) as [l|] eqn:Hl; [|done].
    destruct (index_in_range _ _); [|done].
    simpl. apply typed_set_lists; [|done]. by eapply typed_list_key.
  - unfold hset. simpl. by apply typed_set_hashes.
  - unfold hdel. destruct (hash_store db !! key) as [h|] eqn:Hh; [|done].
    simpl. apply typed_set_hashes; [|done]. by eapply typed_hash_key.
  - by apply typed_hmset.
  - unfold load. case_bool_decide; [done|].
    destruct (fs_files fs !! filename) as [text|]; [|done].
    simpl. apply typed_load_lines; [done|]. apply typed_empty.
Qed.

Lemma typed_run ty cmds : ∀ w,
  run_respects ty cmds w = true → typed ty (w_db w) →
  typed ty (w_db (run cmds w)).
Proof.
  induction cmds as [|c cmds IH]; intros w Hr Ht; [done|].
  simpl in Hr. apply andb_true_iff in Hr as [Hc Hr].
  simpl. apply IH; [done|]. by apply typed_exec.
Qed.

(** The store built by [set("k","v")] and [hset("k","f","v")] holds ["k"]
    both as a string and as a hash. *)
Lemma set_then_hset_breaks_exclusivity :
  ¬ (∀ cmds fs, exclusive (w_db (run cmds (mkWorld empty_db fs)))).
Proof.
  intros H.
  specialize (H [CSet "k" "v"; CHset "k" "f" "v"] (mkFS ∅ ∅) "k").
  vm_compute in H. lia.
Qed.

(** C1.  Type exclusivity for callers that keep to one type per key.  The
    write operations act on their own store only, so exclusivity is what the
    callers make of it: when every key is assigned one type and a sequence of
    public operations, started on the empty store, uses [set] only on string
    keys, the pushes only on list keys, [hset] and [hmset] only on hash keys,
    [rename] only between keys of the same type and [load] only on files
    whose records agree with the assignment, then no key is ever in more than
    one of the three type stores. *)
Theorem exclusive_when_callers_keep_types ty cmds fs
    (Hrespects : run_respects ty cmds (mkWorld empty_db fs) = true) :
  exclusive (w_db (run cmds (mkWorld empty_db fs)))
  ∧ typed ty (w_db (run cmds (mkWorld empty_db fs))).
Proof.
  assert (typed ty (w_db (run cmds (mkWorld empty_db fs)))) as Ht.
  { apply typed_run; [done|]. apply typed_empty. }
  split; [by eapply typed_exclusive|done].
Qed.

Lemma exclusive_when_callers_keep_types_witness :
  exclusive (w_db (run example_session (mkWorld empty_db (mkFS ∅ ∅)))).
Proof.
  assert (run_respects example_types example_session
            (mkWorld empty_db (mkFS ∅ ∅)) = true) as Hrespects
    by (vm_compute; reflexivity).
  exact (proj1 (exclusive_when_callers_keep_types example_types
                  example_session (mkFS ∅ ∅) Hrespects)).
Defined.

(** * Further properties of the store *)

(** Two stores that record the same about every key are equal. *)
Lemma db_eq a b : (∀ key, at_key key a = at_key key b) → a = b.
Proof.
  intros H. destruct a as [kv ls hs ex], b as [kv' ls' hs' ex'].
  f_equal; apply map_eq; intros key; specialize (H key);
    unfold at_key in H; simpl in H; congruence.
Qed.

Lemma at_key_expiry key db : (at_key key db).2 = expiry_map db !! key.
Proof. reflexivity. Qed.

Lemma at_key_kv key db : (at_key key db).1.1.1 = kv_store db !! key.
Proof. reflexivity. Qed.

(** ** set and get *)

(** X1.  A [get] that follows [set] finds the value, provided no deadline
    of the key has passed; a second [set] replaces the first; and [set] is
    invisible to a [get] of any other key. *)
Theorem set_then_get now key value value0 db
    (Hlive : ∀ d, expiry_map db !! key = Some d → now ≤ d) :
  (get now key value0 (set key value db)).1 = (true, value)
  ∧ (∀ value', set key value (set key value' db) = set key value db)
  ∧ (∀ key', (get now key' value0 (set key value db)).1
             = if bool_decide (key' = key) then (true, value)
               else (get now key' value0 db).1).
Proof.
  assert (∀ key', kv_store (purgeExpired now (set key value db)) !! key'
                  = if bool_decide (key' = key) then Some value
                    else kv_store (purgeExpired now db) !! key') as Hkv.
  { intros key'.
    rewrite <- !at_key_kv, !at_key_purgeExpired.
    change (expiry_map (set key value db)) with (expiry_map db).
    case_bool_decide as Hk.
    - subst key'. destruct (expiry_map db !! key) as [d|] eqn:Hd.
      + rewrite bool_decide_eq_false_2 by (specialize (Hlive d eq_refl); lia).
        simpl. apply lookup_insert_eq.
      + simpl. apply lookup_insert_eq.
    - destruct (expiry_map db !! key') as [d|]; [case_bool_decide|];
        try done; simpl; by rewrite lookup_insert_ne. }
  split; [|split].
  - unfold get. rewrite Hkv. by rewrite bool_decide_eq_true_2.
  - intros value'. unfold set, set_kv. simpl. by rewrite insert_insert_eq.
  - intros key'. unfold get. rewrite Hkv. case_bool_decide; [done|].
    by destruct (kv_store (purgeExpired now db) !! key').
Qed.

Lemma set_then_get_witness :
  (get 5 "k" "" (set "k" "v" empty_db)).1 = (true, "v").
Proof.
  apply (set_then_get 5 "k" "v" "" empty_db).
  intros d. vm_compute. discriminate.
Defined.

(** X2.  [set] does not clear a deadline: when a deadline recorded for the
    key has passed, the value just written is erased by the purge of the next
    [get], which reports the key missing. *)
Theorem set_keeps_passed_deadline now key value value0 db d
    (Hd : expiry_map db !! key = Some d)
    (Hpassed : d < now) :
  (get now key value0 (set key value db)).1 = (false, value0)
  ∧ at_key key (get now key value0 (set key value db)).2 = absent.
Proof.
  assert (at_key key (purgeExpired now (set key value db)) = absent) as Habs
    by (by apply purgeExpired_gone with d).
  unfold get. destruct (at_key_absent_inv _ _ Habs) as (-> & _). done.
Qed.

Lemma set_keeps_passed_deadline_witness :
  let db := (del 1 "k" (expire 0 0 "k" 10 (set "k" "old" empty_db)).2).2 in
  (get (11 * ticks_per_second) "k" "" (set "k" "new" db)).1 = (false, "").
Proof.
  apply (set_keeps_passed_deadline (11 * ticks_per_second) "k" "new" ""
           (del 1 "k" (expire 0 0 "k" 10 (set "k" "old" empty_db)).2).2
           (10 * ticks_per_second)).
  - vm_compute. reflexivity.
  - vm_compute. reflexivity.
Defined.

(** ** purgeExpired *)

(** X3.  After a purge at [now] no key is left whose deadline lies before
    [now]: a key whose deadline had passed is in none of the four maps, and
    every other key is recorded as before. *)
Theorem purgeExpired_sound now db key :
  expired now key (purgeExpired now db) = false
  ∧ at_key key (purgeExpired now db)
    = (if expired now key db then absent else at_key key db).
Proof.
  pose proof (at_key_purgeExpired now key db) as Hp.
  unfold expired.
  destruct (expiry_map db !! key) as [d|] eqn:Hd.
  - case_bool_decide as Hlt.
    + apply at_key_absent_inv in Hp as (Hkv & Hl & Hh & He).
      rewrite He. split; [done|].
      unfold at_key, absent. by rewrite Hkv, Hl, Hh, He.
    + pose proof Hp as (_ & _ & _ & He)%at_key_eq_inv.
      rewrite He, Hd. split; [|done].
      by apply bool_decide_eq_false_2.
  - pose proof Hp as (_ & _ & _ & He)%at_key_eq_inv.
    by rewrite He, Hd.
Qed.

(** X4.  A purge followed by a purge at a later clock reading is the later
    purge alone; in particular purging twice at one reading is purging
    once. *)
Theorem purgeExpired_compose now later db (Hlater : now ≤ later) :
  purgeExpired later (purgeExpired now db) = purgeExpired later db
  ∧ purgeExpired now (purgeExpired now db) = purgeExpired now db.
Proof.
  assert (∀ t, now ≤ t →
            purgeExpired t (purgeExpired now db) = purgeExpired t db) as H.
  { intros t Ht. apply db_eq. intros key.
    rewrite (at_key_purgeExpired t key (purgeExpired now db)).
    rewrite (at_key_purgeExpired t key db).
    rewrite <- (at_key_expiry key (purgeExpired now db)).
    rewrite (at_key_purgeExpired now key db).
    destruct (expiry_map db !! key) as [d|] eqn:Hd.
    - destruct (decide (d < now)) as [Hlt|Hge].
      + rewrite (bool_decide_eq_true_2 (d < now)) by done. simpl.
        by rewrite bool_decide_eq_true_2 by lia.
      + rewrite (bool_decide_eq_false_2 (d < now)) by done.
        rewrite at_key_expiry, Hd. done.
    - rewrite at_key_expiry, Hd. done. }
  split; apply H; lia.
Qed.

Lemma purgeExpired_compose_witness :
  let db := (expire 0 0 "k" 1 (set "k" "v" empty_db)).2 in
  purgeExpired (2 * ticks_per_second) (purgeExpired 5 db)
  = purgeExpired (2 * ticks_per_second) db.
Proof.
  apply (purgeExpired_compose 5 (2 * ticks_per_second)
           (expire 0 0 "k" 1 (set "k" "v" empty_db)).2).
  vm_compute. discriminate.
Defined.

(** X5.  A string key with a deadline is found by [get] up to and at the
    deadline and reported missing after it. *)
Theorem expire_then_get now now' later key seconds value value0 db
    (Hkv : kv_store (purgeExpired now db) !! key = Some value) :
  (get later key value0 (expire now now' key seconds db).2).1
  = if bool_decide (now' + seconds * ticks_per_second < later)
    then (false, value0) else (true, value).
Proof.
  rewrite expire_unfold. cbv zeta.
  set (p := purgeExpired now db) in *.
  rewrite bool_decide_eq_false_2.
  2: { intros (H & _)%stores_holding_0. congruence. }
  simpl. unfold get.
  set (q := set_expiry _ p).
  pose proof (at_key_purgeExpired later key q) as Hq.
  assert (expiry_map q !! key = Some (now' + seconds * ticks_per_second)) as He
    by (unfold q; simpl; apply lookup_insert_eq).
  rewrite He in Hq. case_bool_decide.
  - by apply at_key_absent_inv in Hq as (-> & _).
  - apply at_key_eq_inv in Hq as (-> & _). unfold q. simpl. by rewrite Hkv.
Qed.

Lemma expire_then_get_witness :
  let db := set "k" "v" empty_db in
  (get (100 * ticks_per_second) "k" "" (expire 0 0 "k" 100 db).2).1 = (true, "v")
  ∧ (get (100 * ticks_per_second + 1) "k" "" (expire 0 0 "k" 100 db).2).1
    = (false, "").
Proof.
  split.
  - apply (expire_then_get 0 0 (100 * ticks_per_second) "k" 100 "v" ""
             (set "k" "v" empty_db)).
    vm_compute. reflexivity.
  - apply (expire_then_get 0 0 (100 * ticks_per_second + 1) "k" 100 "v" ""
             (set "k" "v" empty_db)).
    vm_compute. reflexivity.
Defined.

(** ** rename, del, flushAll, keys and type *)

Lemma move_entry_lookup {A} oldKey newKey (m : gmap string A) key :
  oldKey ≠ newKey →
  move_entry oldKey newKey m !! key
  = if bool_decide (key = oldKey) then None
    else if bool_decide (key = newKey)
         then match m !! oldKey with
              | Some x => Some x
              | None => m !! newKey
              end
         else m !! key.
Proof.
  intros Hne. unfold move_entry.
  case_bool_decide as Ho; [subst key|case_bool_decide as Hn; [subst key|]].
  - destruct (m !! oldKey) eqn:Hold; [apply lookup_delete_eq|done].
  - destruct (m !! oldKey) eqn:Hold; [|done].
    rewrite lookup_delete_ne by done. apply lookup_insert_eq.
  - destruct (m !! oldKey) eqn:Hold; [|done].
    rewrite lookup_delete_ne by done. by rewrite lookup_insert_ne.
Qed.

(** X6.  [rename] of a live string key to another key returns [true]; the
    old key is then in none of the four maps, the new key holds the value,
    and every third key is recorded as after the purge.  The deadline moves
    with the data; when the old key has none, the new key keeps the deadline
    it had. *)
Theorem rename_moves now oldKey newKey value db
    (Hne : oldKey ≠ newKey)
    (Hkv : kv_store (purgeExpired now db) !! oldKey = Some value) :
  let p := purgeExpired now db in
  let r := (rename now oldKey newKey db).2 in
  (rename now oldKey newKey db).1 = true
  ∧ at_key oldKey r = absent
  ∧ kv_store r !! newKey = Some value
  ∧ expiry_map r !! newKey
    = match expiry_map p !! oldKey with
      | Some d => Some d
      | None => expiry_map p !! newKey
      end
  ∧ (∀ key, key ≠ oldKey → key ≠ newKey → at_key key r = at_key key p).
Proof.
  intros p r. unfold r, p. rewrite rename_unfold. cbv zeta. simpl.
  assert (newKey ≠ oldKey) as Hne' by congruence.
  split; [|split; [|split; [|split]]].
  - unfold in_kv. rewrite Hkv. by rewrite bool_decide_eq_true_2 by by eexists.
  - unfold at_key, absent. simpl. rewrite !move_entry_lookup by done.
    by rewrite !bool_decide_eq_true_2.
  - rewrite move_entry_lookup by done.
    rewrite bool_decide_eq_false_2, bool_decide_eq_true_2 by done.
    by rewrite Hkv.
  - rewrite move_entry_lookup by done.
    by rewrite bool_decide_eq_false_2, bool_decide_eq_true_2 by done.
  - intros key Ho Hn.
    unfold at_key. simpl. rewrite !move_entry_lookup by done.
    rewrite !(bool_decide_eq_false_2 (key = oldKey)) by done.
    by rewrite !(bool_decide_eq_false_2 (key = newKey)) by done.
Qed.

Lemma rename_moves_witness :
  let db := set "a" "x" empty_db in
  (rename 0 "a" "b" db).1 = true
  ∧ (get 0 "a" "" (rename 0 "a" "b" db).2).1 = (false, "")
  ∧ (get 0 "b" "" (rename 0 "a" "b" db).2).1 = (true, "x").
Proof.
  assert ("a" ≠ "b") as Hne by discriminate.
  assert (kv_store (purgeExpired 0 (set "a" "x" empty_db)) !! "a" = Some "x")
    as Hkv by (vm_compute; reflexivity).
  destruct (rename_moves 0 "a" "b" "x" (set "a" "x" empty_db) Hne Hkv)
    as (Hr & _).
  split; [exact Hr|]. vm_compute. split; reflexivity.
Defined.

(** X7.  [keys] and [type] agree: [keys] lists a key exactly when [type]
    does not answer ["none"], and [keys] has one entry for every entry of
    each of the three type stores. *)
Theorem keys_agrees_with_type now key db :
  (key ∈ (keys now db).1 ↔ (type now key db).1 ≠ "none")
  ∧ length (keys now db).1
    = (size (kv_store (purgeExpired now db))
       + size (list_store (purgeExpired now db))
       + size (hash_store (purgeExpired now db)))%nat.
Proof.
  split.
  - rewrite elem_of_keys, type_unfold. cbv zeta. unfold stores_holding.
    destruct (in_kv _ _), (in_list _ _), (in_hash _ _); simpl;
      split; intros H; try done; try lia.
  - rewrite keys_unfold. cbv zeta.
    rewrite !length_app, !length_fmap, !length_map_to_list. lia.
Qed.

Lemma stores_holding_0_purge now key db :
  stores_holding key db = 0%nat →
  stores_holding key (purgeExpired now db) = 0%nat.
Proof.
  rewrite !stores_holding_0. intros (H1 & H2 & H3).
  destruct (stores_sub_purge now db) as (S1 & S2 & S3).
  repeat split; apply eq_None_not_Some; intros H.
  - apply S1 in H. rewrite H1 in H. by destruct H.
  - apply S2 in H. rewrite H2 in H. by destruct H.
  - apply S3 in H. rewrite H3 in H. by destruct H.
Qed.

(** X8.  [del] touches no other key: every key different from the deleted
    one is recorded as after the purge.  The deleted key itself is not
    listed by a later [keys], and [type] answers ["none"] for it, whatever
    store held it. *)
Theorem del_frame now now' key key' db (Hne : key' ≠ key) :
  at_key key' (del now key db).2 = at_key key' (purgeExpired now db)
  ∧ (key ∉ (keys now' (del now key db).2).1)
  ∧ (type now' key (del now key db).2).1 = "none".
Proof.
  pose proof (stores_holding_0_purge now' key _ (del_removes now key db)) as H0.
  split; [|split].
  - rewrite del_unfold. unfold at_key. simpl.
    by rewrite !lookup_delete_ne by done.
  - rewrite elem_of_keys. by intros H.
  - rewrite type_unfold. cbv zeta.
    apply stores_holding_0 in H0 as (H1 & H2 & H3).
    apply in_kv_false in H1. apply in_list_false in H2.
    apply in_hash_false in H3. by rewrite H1, H2, H3.
Qed.

Lemma del_frame_witness :
  at_key "b" (del 0 "a" (set "b" "y" (set "a" "x" empty_db))).2
  = at_key "b" (purgeExpired 0 (set "b" "y" (set "a" "x" empty_db))).
Proof.
  apply (del_frame 0 0 "a" "b" (set "b" "y" (set "a" "x" empty_db))).
  discriminate.
Defined.

Lemma purge_of_empty_stores now ex :
  kv_store (purgeExpired now (mkDB ∅ ∅ ∅ ex)) = ∅
  ∧ list_store (purgeExpired now (mkDB ∅ ∅ ∅ ex)) = ∅
  ∧ hash_store (purgeExpired now (mkDB ∅ ∅ ∅ ex)) = ∅.
Proof.
  destruct (stores_sub_purge now (mkDB ∅ ∅ ∅ ex)) as (S1 & S2 & S3).
  repeat split; apply map_eq; intros k; rewrite lookup_empty;
    apply eq_None_not_Some; intros H;
    [apply S1 in H|apply S2 in H|apply S3 in H]; simpl in H;
    rewrite lookup_empty in H; by destruct H.
Qed.

(** X9.  After [flushAll] the store shows no key: [keys] is empty, [type]
    answers ["none"], [get] finds nothing, lists and hashes read as empty.
    The deadlines stay recorded. *)
Theorem flushAll_empties now key value db :
  (flushAll db).1 = true
  ∧ (keys now (flushAll db).2).1 = []
  ∧ (type now key (flushAll db).2).1 = "none"
  ∧ (get now key value (flushAll db).2).1 = (false, value)
  ∧ lget key (flushAll db).2 = []
  ∧ llen key (flushAll db).2 = 0
  ∧ hgetall key (flushAll db).2 = ∅
  ∧ hlen key (flushAll db).2 = 0
  ∧ expiry_map (flushAll db).2 = expiry_map db.
Proof.
  destruct (purge_of_empty_stores now (expiry_map db)) as (Hkv & Hl & Hh).
  change (flushAll db).2 with (mkDB ∅ ∅ ∅ (expiry_map db)).
  split; [done|]. split; [|split; [|split]].
  - rewrite keys_unfold. cbv zeta. rewrite Hkv, Hl, Hh.
    by rewrite map_to_list_empty.
  - rewrite type_unfold. cbv zeta. unfold in_kv, in_list, in_hash.
    rewrite Hkv, Hl, Hh, !lookup_empty.
    by rewrite !bool_decide_eq_false_2 by by intros [? ?].
  - unfold get. by rewrite Hkv, lookup_empty.
  - unfold lget, llen, hgetall, hlen. simpl. by rewrite !lookup_empty.
Qed.

(** X10.  The list and hash readers do not purge, but once any purging call
    has run after the deadline of a key, they find nothing under it: the
    list reads as empty and so does the hash. *)
Theorem expired_key_reads_empty now key d db
    (Hd : expiry_map db !! key = Some d)
    (Hpassed : d < now) :
  let p := purgeExpired now db in
  lget key p = [] ∧ llen key p = 0 ∧ hgetall key p = ∅ ∧ hlen key p = 0
  ∧ hkeys key p = [] ∧ hvals key p = []
  ∧ (∀ value, lpop key value p = (false, value, p))
  ∧ (∀ field, hexists key field p = false).
Proof.
  intros p.
  destruct (at_key_absent_inv key p (purgeExpired_gone now key db d Hd Hpassed))
    as (_ & Hl & Hh & _).
  unfold lget, llen, hgetall, hlen, hkeys, hvals, lpop, hexists.
  by rewrite Hl, Hh.
Qed.

Lemma expired_key_reads_empty_witness :
  let db := (expire 0 0 "q" 1 (rpush "q" "job" empty_db)).2 in
  lget "q" db = ["job"]
  ∧ lget "q" (purgeExpired (2 * ticks_per_second) db) = [].
Proof.
  split; [vm_compute; reflexivity|].
  apply (expired_key_reads_empty (2 * ticks_per_second) "q"
           (1 * ticks_per_second)
           (expire 0 0 "q" 1 (rpush "q" "job" empty_db)).2).
  - vm_compute. reflexivity.
  - vm_compute. reflexivity.
Defined.

Lemma rename_absent_everywhere_witness :
  rename 0 "ghost" "b" (set "b" "y" empty_db)
  = (false, purgeExpired 0 (set "b" "y" empty_db)).
Proof.
  apply (rename_absent_everywhere 0 "ghost" "b" (set "b" "y" empty_db)).
  vm_compute. reflexivity.
Defined.

(** ** Lists *)

Lemma lget_default key db : default [] (list_store db !! key) = lget key db.
Proof. unfold lget. by destruct (list_store db !! key). Qed.

(** X11.  A pop undoes the push at the same end: it hands the pushed value
    back and the list reads as before the push.  The key stays in the list
    store even if it was not there before the push. *)
Theorem push_then_pop key value value0 db :
  lpop key value0 (lpush key value db)
  = (true, value, set_lists (insert key (lget key db)) db)
  ∧ rpop key value0 (rpush key value db)
    = (true, value, set_lists (insert key (lget key db)) db)
  ∧ lget key (lpop key value0 (lpush key value db)).2 = lget key db
  ∧ lget key (rpop key value0 (rpush key value db)).2 = lget key db
  ∧ in_list key (lpop key value0 (lpush key value db)).2 = true.
Proof.
  assert (lpop key value0 (lpush key value db)
          = (true, value, set_lists (insert key (lget key db)) db)) as Hl.
  { unfold lpop, lpush. simpl. rewrite lookup_insert_eq, lget_default.
    unfold set_lists. simpl. by rewrite insert_insert_eq. }
  assert (rpop key value0 (rpush key value db)
          = (true, value, set_lists (insert key (lget key db)) db)) as Hr.
  { rewrite (rpop_snoc key value0 (rpush key value db) (lget key db) value).
    - unfold rpush, set_lists. simpl. by rewrite insert_insert_eq.
    - unfold rpush. simpl. by rewrite lookup_insert_eq, lget_default. }
  rewrite Hl, Hr. simpl.
  assert (lget key (set_lists (insert key (lget key db)) db) = lget key db)
    as Hget by (unfold lget at 1; simpl; by rewrite lookup_insert_eq).
  repeat split; try done.
  unfold in_list. simpl. rewrite lookup_insert_eq.
  apply bool_decide_eq_true_2. by eexists.
Qed.

Lemma lget_rpush key key' x db :
  lget key' (rpush key x db)
  = if bool_decide (key' = key) then (lget key db ++ [x])%list
    else lget key' db.
Proof.
  unfold lget at 1, rpush. simpl. case_bool_decide as Hk.
  - subst key'. by rewrite lookup_insert_eq, lget_default.
  - by rewrite lookup_insert_ne by done.
Qed.

Lemma lget_lpush key key' x db :
  lget key' (lpush key x db)
  = if bool_decide (key' = key) then x :: lget key db else lget key' db.
Proof.
  unfold lget at 1, lpush. simpl. case_bool_decide as Hk.
  - subst key'. by rewrite lookup_insert_eq, lget_default.
  - by rewrite lookup_insert_ne by done.
Qed.

(** X12.  Pushing a sequence of values: [rpush] appends them in order,
    [lpush] puts them in front in reverse order, and the lists under other
    keys are not touched. *)
Theorem push_sequence key key' items db :
  lget key' (foldl (λ d x, rpush key x d) db items)
  = (if bool_decide (key' = key) then (lget key db ++ items)%list
     else lget key' db)
  ∧ lget key' (foldl (λ d x, lpush key x d) db items)
    = (if bool_decide (key' = key) then (reverse items ++ lget key db)%list
       else lget key' db)
  ∧ llen key (foldl (λ d x, rpush key x d) db items)
    = llen key db + Z.of_nat (length items).
Proof.
  assert (∀ k d, llen k d = Z.of_nat (length (lget k d))) as Hlen.
  { intros k d. unfold llen, lget. by destruct (list_store d !! k). }
  assert (∀ k items db,
            lget k (foldl (λ d x, rpush key x d) db items)
            = (if bool_decide (k = key) then (lget key db ++ items)%list
               else lget k db)) as Hr.
  { clear. intros k items. induction items as [|x items IH]; intros db; simpl.
    - case_bool_decide; [subst|done]. by rewrite app_nil_r.
    - rewrite IH, !lget_rpush. rewrite (bool_decide_eq_true_2 (key = key)) by done.
      case_bool_decide; [|done]. by rewrite <- app_assoc. }
  split; [apply Hr|]. split.
  - revert db. induction items as [|x items IH]; intros db; simpl.
    + by case_bool_decide; [subst|].
    + rewrite IH, !lget_lpush. rewrite (bool_decide_eq_true_2 (key = key)) by done.
      case_bool_decide; [|done]. rewrite reverse_cons. by rewrite <- app_assoc.
  - rewrite !Hlen, Hr, bool_decide_eq_true_2 by done. rewrite length_app. lia.
Qed.

Lemma normalize_index_position index lst :
  Z.of_nat (length lst) ≤ INT_MAX → INT_MIN ≤ index ≤ INT_MAX →
  normalize_index index lst = position index lst
  ∧ index_in_range (position index lst) lst
    = bool_decide (0 ≤ position index lst < Z.of_nat (length lst)).
Proof.
  intros Hlen Hidx. unfold normalize_index, position, index_in_range.
  rewrite (wrap32_small (Z.of_nat (length lst)))
    by (unfold INT_MIN, INT_MAX in *; lia).
  split.
  - case_bool_decide; [|done]. apply wrap32_small.
    unfold INT_MIN, INT_MAX in *. lia.
  - repeat case_bool_decide; simpl; try done; lia.
Qed.

(** X13.  [lindex] on [int] indices (and a list whose length is an [int]):
    a non-negative index counts from the head, a negative one from the end,
    [-1] being the last element; the element at that position is handed out,
    and when the position is outside the list, or the key has no list, the
    answer is [false] and the out-parameter keeps its value. *)
Theorem lindex_spec key index value db
    (Hlen : Z.of_nat (length (lget key db)) ≤ INT_MAX)
    (Hidx : INT_MIN ≤ index ≤ INT_MAX) :
  lindex key index value db
  = match element_at (position index (lget key db)) (lget key db) with
    | Some x => (true, x)
    | None => (false, value)
    end.
Proof.
  unfold lindex, lget in *.
  destruct (list_store db !! key) as [lst|] eqn:Hl.
  - destruct (normalize_index_position index lst Hlen Hidx) as [-> ->].
    unfold element_at. case_bool_decide as Hin.
    + rewrite bool_decide_eq_true_2 by lia. done.
    + case_bool_decide as H0; [|done].
      rewrite lookup_ge_None_2 by lia. done.
  - destruct (element_at (position index []) []) as [x|] eqn:E; [|done].
    unfold element_at in E. destruct (bool_decide _) in E; [|done].
    by rewrite lookup_nil in E.
Qed.

Lemma lindex_spec_witness :
  let db := rpush "l" "c" (rpush "l" "b" (rpush "l" "a" empty_db)) in
  lindex "l" (-1) "" db = (true, "c")
  ∧ lindex "l" (-4) "old" db = (false, "old").
Proof.
  assert (Z.of_nat (length (lget "l"
            (rpush "l" "c" (rpush "l" "b" (rpush "l" "a" empty_db)))))
          ≤ INT_MAX) as Hlen by (vm_compute; discriminate).
  assert (INT_MIN ≤ -1 ≤ INT_MAX) as H1 by (vm_compute; split; discriminate).
  assert (INT_MIN ≤ -4 ≤ INT_MAX) as H4 by (vm_compute; split; discriminate).
  exact (conj
    (lindex_spec "l" (-1) ""
       (rpush "l" "c" (rpush "l" "b" (rpush "l" "a" empty_db))) Hlen H1)
    (lindex_spec "l" (-4) "old"
       (rpush "l" "c" (rpush "l" "b" (rpush "l" "a" empty_db))) Hlen H4)).
Defined.

(** X14.  [lset] on [int] indices: it succeeds exactly when the position is
    in the list; it then replaces that one element, so that [lindex] at the
    same index hands out the new value and the length is unchanged; when it
    fails the store is unchanged. *)
Theorem lset_spec key index value value0 db
    (Hlen : Z.of_nat (length (lget key db)) ≤ INT_MAX)
    (Hidx : INT_MIN ≤ index ≤ INT_MAX) :
  let pos := position index (lget key db) in
  (lset key index value db).1
  = bool_decide (0 ≤ pos < Z.of_nat (length (lget key db)))
  ∧ lget key (lset key index value db).2
    = (if (lset key index value db).1
       then <[Z.to_nat pos := value]> (lget key db) else lget key db)
  ∧ llen key (lset key index value db).2 = llen key db
  ∧ lindex key index value0 (lset key index value db).2
    = (if (lset key index value db).1 then (true, value) else
       lindex key index value0 db)
  ∧ ((lset key index value db).1 = false → (lset key index value db).2 = db).
Proof.
  intros pos. unfold pos. clear pos.
  assert (∀ k d, llen k d = Z.of_nat (length (lget k d))) as Hllen.
  { intros k d. unfold llen, lget. by destruct (list_store d !! k). }
  destruct (list_store db !! key) as [lst|] eqn:Hl.
  - assert (lget key db = lst) as Hget by (unfold lget; by rewrite Hl).
    rewrite Hget in *.
    destruct (normalize_index_position index lst Hlen Hidx) as [Hn Hr].
    unfold lset. rewrite Hl. cbv zeta. rewrite Hn, Hr.
    case_bool_decide as Hin; cbn [fst snd].
    + set (db' := set_lists _ db).
      assert (lget key db' = <[Z.to_nat (position index lst) := value]> lst)
        as Hget'.
      { unfold lget, db'. simpl. by rewrite lookup_insert_eq. }
      clearbody db'.
      repeat split; try done.
      * by rewrite (Hllen key db'), (Hllen key db), Hget', Hget, length_insert.
      * rewrite lindex_spec; [|by rewrite Hget', length_insert|done].
        rewrite Hget'.
        assert (position index (<[Z.to_nat (position index lst) := value]> lst)
                = position index lst) as ->.
        { unfold position. by rewrite length_insert. }
        unfold element_at. rewrite bool_decide_eq_true_2 by lia.
        rewrite list_lookup_insert_eq by lia. done.
    + by rewrite Hget.
  - assert (lget key db = []) as Hget by (unfold lget; by rewrite Hl).
    rewrite Hget in *. unfold lset. rewrite Hl. simpl.
    rewrite bool_decide_eq_false_2 by lia. by rewrite Hget.
Qed.

Lemma lset_spec_witness :
  let db := rpush "l" "c" (rpush "l" "b" (rpush "l" "a" empty_db)) in
  lget "l" (lset "l" (-1) "z" db).2 = ["a"; "b"; "z"]
  ∧ lindex "l" (-1) "" (lset "l" (-1) "z" db).2 = (true, "z")
  ∧ (lset "l" 3 "z" db).2 = db.
Proof.
  pose proof (lset_spec "l" (-1) "z" ""
    (rpush "l" "c" (rpush "l" "b" (rpush "l" "a" empty_db)))
    ltac:(vm_compute; discriminate) ltac:(vm_compute; split; discriminate))
    as (_ & H1 & _ & H2 & _).
  pose proof (lset_spec "l" 3 "z" ""
    (rpush "l" "c" (rpush "l" "b" (rpush "l" "a" empty_db)))
    ltac:(vm_compute; discriminate) ltac:(vm_compute; split; discriminate))
    as (_ & _ & _ & _ & H3).
  split; [exact H1|]. split; [exact H2|].
  apply H3. vm_compute. reflexivity.
Defined.

Lemma lrem_list_correct_witness :
  (lrem_list (-1) "a" ["a"; "b"; "a"]).1 = ["a"; "b"]
  ∧ (lrem_list (-1) "a" ["a"; "b"; "a"]).2 = 1.
Proof.
  destruct (lrem_list_correct (-1) "a" ["a"; "b"; "a"]
              ltac:(vm_compute; split; [reflexivity|discriminate])
              ltac:(vm_compute; discriminate)) as (H1 & H2 & _).
  split; [exact H1|exact H2].
Defined.

Lemma lrem_zero_twice_witness :
  let db := rpush "k" "a" (rpush "k" "b" (rpush "k" "a" empty_db)) in
  (lrem "k" 0 "a" (lrem "k" 0 "a" db).2).1 = 0.
Proof.
  apply (lrem_zero_twice "k" "a"
           (rpush "k" "a" (rpush "k" "b" (rpush "k" "a" empty_db)))).
  vm_compute. discriminate.
Defined.

(** ** Hashes *)

Lemma hgetall_default key db :
  default ∅ (hash_store db !! key) = hgetall key db.
Proof. unfold hgetall. by destruct (hash_store db !! key). Qed.

Lemma hget_hgetall key field value db :
  hget key field value db
  = match hgetall key db !! field with
    | Some v => (true, v)
    | None => (false, value)
    end.
Proof.
  unfold hget, hgetall. destruct (hash_store db !! key); [done|].
  by rewrite lookup_empty.
Qed.

Lemma hexists_hgetall key field db :
  hexists key field db = bool_decide (is_Some (hgetall key db !! field)).
Proof.
  unfold hexists, hgetall. destruct (hash_store db !! key); [done|].
  rewrite lookup_empty. symmetry. apply bool_decide_eq_false_2. by intros [? ?].
Qed.

Lemma hlen_hgetall key db : hlen key db = Z.of_nat (size (hgetall key db)).
Proof.
  unfold hlen, hgetall. destruct (hash_store db !! key); [done|].
  by rewrite map_size_empty.
Qed.

Lemma hgetall_hset key key' field value db :
  hgetall key' (hset key field value db).2
  = if bool_decide (key' = key) then <[field := value]> (hgetall key db)
    else hgetall key' db.
Proof.
  unfold hgetall at 1, hset. simpl. case_bool_decide as Hk.
  - subst key'. by rewrite lookup_insert_eq, hgetall_default.
  - by rewrite lookup_insert_ne by done.
Qed.

(** X15.  [hset] always succeeds and creates the hash when the key has
    none; afterwards [hget] hands out the value, [hexists] is true, the
    other fields and the other keys read as before, and [hlen] has grown by
    one exactly when the field is new. *)
Theorem hset_then_hget key key' field field' value value0 db :
  (hset key field value db).1 = true
  ∧ hget key field value0 (hset key field value db).2 = (true, value)
  ∧ hexists key field (hset key field value db).2 = true
  ∧ hget key' field' value0 (hset key field value db).2
    = (if bool_decide (key' = key ∧ field' = field) then (true, value)
       else hget key' field' value0 db)
  ∧ hlen key (hset key field value db).2
    = hlen key db + (if hexists key field db then 0 else 1).
Proof.
  split; [done|]. split; [|split; [|split]].
  - rewrite hget_hgetall, hgetall_hset, (bool_decide_eq_true_2 (key = key)) by done.
    by rewrite lookup_insert_eq.
  - rewrite hexists_hgetall, hgetall_hset, (bool_decide_eq_true_2 (key = key)) by done.
    rewrite lookup_insert_eq. apply bool_decide_eq_true_2. by eexists.
  - rewrite !hget_hgetall, hgetall_hset.
    destruct (decide (key' = key)) as [->|Hk].
    + rewrite bool_decide_eq_true_2 by done.
      destruct (decide (field' = field)) as [->|Hf].
      * rewrite bool_decide_eq_true_2 by done. by rewrite lookup_insert_eq.
      * rewrite bool_decide_eq_false_2 by (by intros [_ ?]).
        by rewrite lookup_insert_ne by done.
    + rewrite bool_decide_eq_false_2 by done.
      by rewrite bool_decide_eq_false_2 by (by intros [? _]).
  - rewrite !hlen_hgetall, hexists_hgetall, hgetall_hset.
    rewrite (bool_decide_eq_true_2 (key = key)) by done.
    destruct (hgetall key db !! field) as [v|] eqn:Hf.
    + rewrite bool_decide_eq_true_2 by (by eexists).
      rewrite <- (insert_delete_id (hgetall key db) field v Hf) at 2.
      rewrite <- (insert_delete_eq (hgetall key db)).
      rewrite !map_size_insert_None by apply lookup_delete_eq. lia.
    + rewrite bool_decide_eq_false_2 by (by intros [? ?]).
      rewrite map_size_insert_None by done. lia.
Qed.

Lemma hgetall_hdel key key' field db :
  hgetall key' (hdel key field db).2
  = if bool_decide (key' = key) then delete field (hgetall key db)
    else hgetall key' db.
Proof.
  unfold hdel. destruct (hash_store db !! key) as [h|] eqn:Hh; simpl.
  - unfold hgetall at 1. simpl. case_bool_decide as Hk.
    + subst key'. rewrite lookup_insert_eq. unfold hgetall. by rewrite Hh.
    + by rewrite lookup_insert_ne by done.
  - case_bool_decide as Hk; [|done]. subst key'.
    unfold hgetall. rewrite Hh. by rewrite delete_empty.
Qed.

(** X16.  [hdel] answers whether the field was there; afterwards the field
    is gone, the other fields and the other keys read as before, and [hlen]
    has dropped by one exactly when the field was there.  On a key without a
    hash it answers [false] and changes nothing. *)
Theorem hdel_spec key key' field field' value0 db :
  (hdel key field db).1 = hexists key field db
  ∧ hexists key field (hdel key field db).2 = false
  ∧ hget key' field' value0 (hdel key field db).2
    = (if bool_decide (key' = key ∧ field' = field) then (false, value0)
       else hget key' field' value0 db)
  ∧ hlen key (hdel key field db).2
    = hlen key db - (if hexists key field db then 1 else 0)
  ∧ (if in_hash key db then True else hdel key field db = (false, db)).
Proof.
  split; [|split; [|split; [|split]]].
  - unfold hdel, hexists. by destruct (hash_store db !! key).
  - rewrite hexists_hgetall, hgetall_hdel, (bool_decide_eq_true_2 (key = key)) by done.
    rewrite lookup_delete_eq. apply bool_decide_eq_false_2. by intros [? ?].
  - rewrite !hget_hgetall, hgetall_hdel.
    destruct (decide (key' = key)) as [->|Hk].
    + rewrite bool_decide_eq_true_2 by done.
      destruct (decide (field' = field)) as [->|Hf].
      * rewrite bool_decide_eq_true_2 by done. by rewrite lookup_delete_eq.
      * rewrite bool_decide_eq_false_2 by (by intros [_ ?]).
        by rewrite lookup_delete_ne by done.
    + rewrite bool_decide_eq_false_2 by done.
      by rewrite bool_decide_eq_false_2 by (by intros [? _]).
  - rewrite !hlen_hgetall, hexists_hgetall, hgetall_hdel.
    rewrite (bool_decide_eq_true_2 (key = key)) by done.
    destruct (hgetall key db !! field) as [v|] eqn:Hf.
    + rewrite bool_decide_eq_true_2 by (by eexists).
      rewrite <- (insert_delete_id (hgetall key db) field v Hf) at 2.
      rewrite map_size_insert_None by apply lookup_delete_eq. lia.
    + rewrite bool_decide_eq_false_2 by (by intros [? ?]).
      rewrite delete_id by done. lia.
  - unfold in_hash, hdel. destruct (hash_store db !! key) eqn:Hh.
    + by rewrite bool_decide_eq_true_2 by (by eexists).
    + by rewrite bool_decide_eq_false_2 by (by intros [? ?]).
Qed.

(** X17.  [hmset] writes the pairs in turn, so that a later pair for a
    field replaces an earlier one; the hashes under other keys are not
    touched, and with no pair at all the store is unchanged: no empty hash is
    created. *)
Theorem hmset_spec key key' fieldValues db :
  (hmset key fieldValues db).1 = true
  ∧ hgetall key' (hmset key fieldValues db).2
    = (if bool_decide (key' = key) then assign_all (hgetall key db) fieldValues
       else hgetall key' db)
  ∧ hmset key [] db = (true, db)
  ∧ in_hash key (hmset key fieldValues db).2
    = in_hash key db || negb (bool_decide (fieldValues = [])).
Proof.
  assert (∀ fvs d,
            (hmset key fvs d).2
            = foldl (λ d fv, (hset key fv.1 fv.2 d).2) d fvs) as Hfold
    by reflexivity.
  assert (∀ k fvs d,
            hgetall k (hmset key fvs d).2
            = (if bool_decide (k = key) then assign_all (hgetall key d) fvs
               else hgetall k d)) as Hall.
  { intros k fvs.
    induction fvs as [|fv fvs IH]; intros d.
    - simpl. by case_bool_decide; [subst|].
    - change ((hmset key (fv :: fvs) d).2)
        with ((hmset key fvs (hset key fv.1 fv.2 d).2).2).
      rewrite IH, !hgetall_hset.
      rewrite !(bool_decide_eq_true_2 (key = key)) by done.
      by case_bool_decide. }
  split; [done|]. split; [apply Hall|]. split; [done|].
  destruct fieldValues as [|fv fvs]; simpl.
  - by rewrite orb_false_r.
  - rewrite orb_true_r.
    assert (∀ fvs d, in_hash key d = true →
              in_hash key (hmset key fvs d).2 = true) as Hkeep.
    { clear. intros fvs. induction fvs as [|fv fvs IH]; intros d Hd; [done|].
      apply IH. unfold in_hash. simpl. rewrite lookup_insert_eq.
      apply bool_decide_eq_true_2. by eexists. }
    apply (Hkeep fvs). unfold in_hash. simpl. rewrite lookup_insert_eq.
    apply bool_decide_eq_true_2. by eexists.
Qed.

(** X18.  [hkeys] and [hvals] list the fields and the values of the hash in
    the same order: paired up they are the content of [hgetall]; no field is
    listed twice, a field is listed exactly when [hexists] holds, and both
    lists have [hlen] entries. *)
Theorem hkeys_hvals_spec key field db :
  list_to_map (zip (hkeys key db) (hvals key db)) = hgetall key db
  ∧ NoDup (hkeys key db)
  ∧ (field ∈ hkeys key db ↔ hexists key field db = true)
  ∧ Z.of_nat (length (hkeys key db)) = hlen key db
  ∧ Z.of_nat (length (hvals key db)) = hlen key db.
Proof.
  assert (hkeys key db = (map_to_list (hgetall key db)).*1) as Hk.
  { unfold hkeys, hgetall. destruct (hash_store db !! key); [done|].
    by rewrite map_to_list_empty. }
  assert (hvals key db = (map_to_list (hgetall key db)).*2) as Hv.
  { unfold hvals, hgetall. destruct (hash_store db !! key); [done|].
    by rewrite map_to_list_empty. }
  rewrite Hk, Hv, hlen_hgetall, hexists_hgetall.
  split; [|split; [|split; [|split]]].
  - rewrite zip_fst_snd. apply list_to_map_to_list.
  - apply NoDup_fst_map_to_list.
  - rewrite elem_of_map_keys. by rewrite bool_decide_eq_true.
  - by rewrite length_fmap, length_map_to_list.
  - by rewrite length_fmap, length_map_to_list.
Qed.

(** ** Persistence, continued *)

Lemma load_line_same_stores uninit line a b :
  same_stores a b →
  same_stores (load_line uninit line a) (load_line uninit line b).
Proof.
  intros (Hkv & Hl & Hh). rewrite !load_line_cases. cbv zeta.
  repeat case_bool_decide; unfold same_stores; simpl;
    by rewrite ?Hkv, ?Hl, ?Hh.
Qed.

Lemma load_lines_same_stores uninit lines : ∀ n a b,
  same_stores a b →
  same_stores (load_lines uninit n lines a) (load_lines uninit n lines b).
Proof.
  induction lines as [|l lines IH]; intros n a b H; [done|].
  simpl. apply IH. by apply load_line_same_stores.
Qed.

(** X19.  [load] replaces, it never merges: when the file can be opened,
    the three type stores after [load] are the same whatever the store held
    before, and the deadlines recorded before stay recorded. *)
Theorem load_replaces uninit filename db1 db2 fs
    (Hok : (load uninit filename db1 fs).1 = true) :
  (load uninit filename db2 fs).1 = true
  ∧ same_stores (load uninit filename db1 fs).2 (load uninit filename db2 fs).2
  ∧ expiry_map (load uninit filename db2 fs).2 = expiry_map db2.
Proof.
  unfold load in *. case_bool_decide; [done|].
  destruct (fs_files fs !! filename) as [text|]; [|done].
  simpl. split; [done|]. split; [|by rewrite load_lines_expiry].
  by apply load_lines_same_stores.
Qed.

Lemma load_replaces_witness :
  let fs := (dump "f" example_db (mkFS ∅ ∅)).2 in
  same_stores (load (λ _, "X"%char) "f" empty_db fs).2
              (load (λ _, "X"%char) "f" (set "stale" "1" empty_db) fs).2.
Proof.
  assert ((load (λ _, "X"%char) "f" empty_db
             (dump "f" example_db (mkFS ∅ ∅)).2).1 = true) as Hok
    by (vm_compute; reflexivity).
  exact (proj1 (proj2 (load_replaces (λ _, "X"%char) "f" empty_db
    (set "stale" "1" empty_db) (dump "f" example_db (mkFS ∅ ∅)).2 Hok))).
Defined.

(** X20.  Restoring a snapshot: for a store that the format can represent,
    a [load] of the file written by [dump] puts the three type stores of the
    dumped store in the place of whatever the loading store holds; lists and
    hashes read as in the dumped store.  The deadlines are those of the
    loading store: none is written to the file and none is cleared. *)
Theorem dump_then_load_restores uninit filename db db2 fs
    (Hrep : representable db)
    (Hdump : (dump filename db fs).1 = true) :
  let r := load uninit filename db2 (dump filename db fs).2 in
  r.1 = true
  ∧ same_stores r.2 db
  ∧ expiry_map r.2 = expiry_map db2
  ∧ (∀ key, lget key r.2 = lget key db)
  ∧ (∀ key, hgetall key r.2 = hgetall key db).
Proof.
  intros r.
  assert (r = (true, load_lines uninit 0 (getlines (dump_text db))
                       (mkDB ∅ ∅ ∅ (expiry_map db2)))) as Hr.
  { unfold r, dump in *. case_bool_decide as Hden; [done|].
    unfold load. simpl. rewrite bool_decide_eq_false_2 by done.
    by rewrite lookup_insert_eq. }
  assert (same_stores r.2 db) as Hsame.
  { rewrite Hr. simpl.
    assert (same_stores
              (load_lines uninit 0 (getlines (dump_text db))
                 (mkDB ∅ ∅ ∅ (expiry_map db2)))
              (load_lines uninit 0 (getlines (dump_text db))
                 (mkDB ∅ ∅ ∅ (expiry_map db)))) as H
      by (by apply load_lines_same_stores).
    by rewrite (load_lines_dump_text uninit db Hrep) in H. }
  split; [by rewrite Hr|]. split; [done|].
  split; [rewrite Hr; simpl; by rewrite load_lines_expiry|].
  destruct Hsame as (Hkv & Hl & Hh).
  split; intros key; [unfold lget; by rewrite Hl|unfold hgetall; by rewrite Hh].
Qed.

Lemma example_db_representable : representable example_db.
Proof.
  unfold representable. apply (bool_decide_unpack _). vm_compute. exact I.
Qed.

Lemma dump_then_load_restores_witness :
  let r := load (λ _, "X"%char) "f" (set "stale" "1" empty_db)
             (dump "f" example_db (mkFS ∅ ∅)).2 in
  r.1 = true ∧ same_stores r.2 example_db.
Proof.
  assert ((dump "f" example_db (mkFS ∅ ∅)).1 = true) as Hdump
    by (vm_compute; reflexivity).
  destruct (dump_then_load_restores (λ _, "X"%char) "f" example_db
              (set "stale" "1" empty_db) (mkFS ∅ ∅)
              example_db_representable Hdump) as (H1 & H2 & _).
  exact (conj H1 H2).
Defined.

Lemma dump_lines_no_newline db :
  representable db →
  Forall (λ l, no_newline l = true)
    ((kv_line <$> map_to_list (kv_store db))
     ++ (list_line <$> map_to_list (list_store db))
     ++ (hash_line <$> map_to_list (hash_store db)))%list.
Proof.
  intros (Hkv & Hls & Hhs).
  apply map_Forall_to_list in Hkv, Hls, Hhs.
  rewrite !Forall_app. repeat split; apply Forall_fmap.
  - eapply Forall_impl; [exact Hkv|]. intros [k v] [Hk Hv].
    apply kv_line_no_newline; [by apply word_no_space|done].
  - eapply Forall_impl; [exact Hls|]. intros [k l] [Hk Hl].
    apply list_line_no_newline; [by apply word_no_space|].
    eapply Forall_impl; [exact Hl|]. intros x. apply word_no_space.
  - eapply Forall_impl; [exact Hhs|]. intros [k h] [Hk Hh].
    apply hash_line_no_newline; [by apply word_no_space|done].
Qed.

(** X21.  [dump] fails exactly on a path that cannot be opened, and then
    leaves the file system alone; otherwise it replaces the content of that
    one file.  For a store that the format can represent the file has one
    line for each entry of each type store: first the strings, then the
    lists, then the hashes. *)
Theorem dump_one_line_per_entry filename db fs (Hrep : representable db) :
  (dump filename db fs).1 = negb (bool_decide (filename ∈ fs_denied fs))
  ∧ (if (dump filename db fs).1
     then (dump filename db fs).2
          = mkFS (<[filename := dump_text db]> (fs_files fs)) (fs_denied fs)
     else (dump filename db fs).2 = fs)
  ∧ getlines (dump_text db)
    = ((kv_line <$> map_to_list (kv_store db))
       ++ (list_line <$> map_to_list (list_store db))
       ++ (hash_line <$> map_to_list (hash_store db)))%list
  ∧ length (getlines (dump_text db))
    = (size (kv_store db) + size (list_store db) + size (hash_store db))%nat.
Proof.
  assert (getlines (dump_text db)
          = ((kv_line <$> map_to_list (kv_store db))
             ++ (list_line <$> map_to_list (list_store db))
             ++ (hash_line <$> map_to_list (hash_store db)))%list) as Hlines.
  { unfold dump_text. apply getlines_unlines. by apply dump_lines_no_newline. }
  split; [|split; [|split; [done|]]].
  - unfold dump. by case_bool_decide.
  - unfold dump. by case_bool_decide.
  - rewrite Hlines, !length_app, !length_fmap, !length_map_to_list. lia.
Qed.

Lemma dump_one_line_per_entry_witness :
  length (getlines (dump_text example_db)) = 4%nat.
Proof.
  exact (proj2 (proj2 (proj2 (dump_one_line_per_entry "f" example_db
    (mkFS ∅ ∅) example_db_representable)))).
Defined.

Lemma load_lines_any_order_witness :
  load_lines (λ _, "X"%char) 0
    (getlines (unlines
       ((kv_line <$> reverse (map_to_list (kv_store example_db)))
        ++ (list_line <$> reverse (map_to_list (list_store example_db)))
        ++ (hash_line_of
              <$> ((λ e, (e.1, reverse (map_to_list e.2)))
                     <$> map_to_list (hash_store example_db))))%list))
    (mkDB ∅ ∅ ∅ (expiry_map example_db))
  = example_db.
Proof.
  apply (load_lines_any_order (λ _, "X"%char) example_db _ _ _
           (map_to_list (hash_store example_db))).
  - exact example_db_representable.
  - apply reverse_Permutation.
  - apply reverse_Permutation.
  - reflexivity.
  - induction (map_to_list (hash_store example_db)) as [|e l IH];
      constructor; [|exact IH].
    split; [reflexivity|apply reverse_Permutation].
Defined.
